(** * COSE_Encrypt message orchestration (cose/messages/encmessage.py)

    A shallow embedding of the [EncMessage] class: construction and the
    validating [recipients] setter, wire decode ([from_cose_obj]) and encode,
    and the encrypt / decrypt orchestration over the attached recipients.

    Python objects that are mutated in place live in explicit stores: the
    recipient objects (whose [payload] attribute the key-wrap pass assigns)
    and the list objects (the setter appends to the stored list in place).
    Calls that leave this module (recipient methods, the common encryption
    base, [os.urandom]) are taken through the [Collaborators] interface and
    recorded in a call trace. *)

From Stdlib Require Import Strings.Byte ZArith.
From stdpp Require Import base gmap list strings.

Set Default Proof Using "Type".
Set Warnings "-register-all,-clear-no-such-hyp".

(** ** Data model *)

Definition bytes := list byte.
Definition loc := nat.

(** The classes an element handed to the envelope can have.  The four
    recipient variants derive from [CoseRecipient]; so may other classes;
    anything else (an [int], a [str], ...) does not. *)
Inductive PyClass :=
| DirectEncryption
| DirectKeyAgreement
| KeyWrap
| KeyAgreementWithKeyWrap
| OtherCoseRecipient
| NotCoseRecipient.

#[global] Instance PyClass_eq_dec : EqDecision PyClass.
Proof. solve_decision. Defined.

(** [issubclass(c, CoseRecipient)] *)
Definition issubclass_CoseRecipient (c : PyClass) : bool :=
  match c with
  | NotCoseRecipient => false
  | _ => true
  end.

Record Algorithm := mkAlgorithm {
  alg_id : Z;
  get_key_length : nat
}.

Inductive KeyOp := EncryptOp | DecryptOp | WrapOp | UnwrapOp.

(** [SymmetricKey(key=..., optional_params={KpAlg: ..., KpKeyOps: [...]})] *)
Record SK := SymmetricKey {
  sk_key : bytes;
  KpAlg : option Algorithm;
  KpKeyOps : list KeyOp
}.

(** An object on the heap, as far as this module looks at it: its class,
    the [payload] attribute (the carrier of wrapped-key bytes) and the key
    material the recipient holds. *)
Record PyObject := mkObject {
  ob_type : PyClass;
  r_payload : bytes;
  r_key : bytes
}.

#[global] Instance PyObject_inhabited : Inhabited PyObject :=
  populate (mkObject NotCoseRecipient [] []).

Definition Headers := list (Z * Z).

Inductive Cbor :=
| CInt (z : Z)
| CBytes (b : bytes)
| CMap (m : Headers)
| CArray (items : list Cbor).

Record EncMessage := mkEncMessage {
  phdr : Headers;
  uhdr : Headers;
  payload : bytes;
  external_aad : bytes;
  key : option SK;
  _recipients : loc
}.

Definition with_key (k : option SK) (m : EncMessage) : EncMessage :=
  mkEncMessage (phdr m) (uhdr m) (payload m) (external_aad m) k (_recipients m).

Definition with_recipients (l : loc) (m : EncMessage) : EncMessage :=
  mkEncMessage (phdr m) (uhdr m) (payload m) (external_aad m) (key m) l.

(** Exceptions.  The four classes this module raises or catches by name
    are constructors; an instance of any other class is a [PyError], which
    carries the name of its class and the names of the classes that class
    derives from.  [CoseException], the library's own exception class, is
    declared outside this file and is taken to derive from [Exception]
    only. *)
Inductive exn :=
| CoseException (msg : string)
| TypeError (msg : string)
| IndexError (msg : string)
| ValueError (msg : string)
| PyError (cls : string) (bases : list string) (msg : string).

(** Calls that cross the module boundary and touch key material. *)
Inductive Event :=
| EvUrandom (n : nat)
| EvRecipientEncrypt (r : loc) (target_alg : Algorithm) (carrier : bytes)
| EvComputeCek (r : loc) (target_alg : Algorithm) (mode : string)
| EvSeal (cek : option SK)
| EvOpen (cek : option SK).

Definition Entropy := nat.

Record World := mkWorld {
  heap : gmap loc PyObject;
  lists : gmap loc (list loc);
  entropy : Entropy;
  trace : list Event
}.

Definition with_heap (h : gmap loc PyObject) (w : World) : World :=
  mkWorld h (lists w) (entropy w) (trace w).

Definition with_lists (ls : gmap loc (list loc)) (w : World) : World :=
  mkWorld (heap w) ls (entropy w) (trace w).

Definition with_entropy (g : Entropy) (w : World) : World :=
  mkWorld (heap w) (lists w) g (trace w).

Definition log (e : Event) (w : World) : World :=
  mkWorld (heap w) (lists w) (entropy w) (trace w ++ [e]).

(** ** The monad of method bodies

    A method runs on the envelope [self] and the world, and either returns,
    raises, or is cut off by the step bound (only the setter's loop can
    run unboundedly). *)

Inductive Outcome (A : Type) :=
| Ok (a : A)
| Raise (e : exn)
| OutOfFuel.
Arguments Ok {A} a.
Arguments Raise {A} e.
Arguments OutOfFuel {A}.

Definition Config : Type := EncMessage * World.

Definition M (A : Type) : Type := Config -> Outcome A * Config.

Definition ret {A} (a : A) : M A := fun c => (Ok a, c).

Definition bind {A B} (m : M A) (f : A -> M B) : M B :=
  fun c =>
    match m c with
    | (Ok a, c') => f a c'
    | (Raise e, c') => (Raise e, c')
    | (OutOfFuel, c') => (OutOfFuel, c')
    end.

Definition raise {A} (e : exn) : M A := fun c => (Raise e, c).

Definition out_of_fuel {A} : M A := fun c => (OutOfFuel, c).

Notation "x <- m ;; k" := (bind m (fun x => k))
  (at level 100, m at next level, right associativity).
Notation "m ;;; k" := (bind m (fun _ => k))
  (at level 100, right associativity).

(** [try: m except (IndexError, ValueError): h].  The clause catches an
    instance of either class and of every class derived from one of them
    ([UnicodeDecodeError] and the decoder's value errors derive from
    [ValueError]). *)
Definition is_IndexError_or_ValueError (e : exn) : bool :=
  match e with
  | IndexError _ | ValueError _ => true
  | PyError cls bases _ =>
      bool_decide (cls = "IndexError" ∨ cls = "ValueError"
                   ∨ "IndexError" ∈ bases ∨ "ValueError" ∈ bases)
  | CoseException _ | TypeError _ => false
  end.

Definition try_except_Index_Value {A} (m : M A) (h : M A) : M A :=
  fun c =>
    match m c with
    | (Raise e, c') =>
        if is_IndexError_or_ValueError e then h c' else (Raise e, c')
    | r => r
    end.

Definition get_self : M EncMessage := fun c => (Ok (fst c), c).
Definition get_world : M World := fun c => (Ok (snd c), c).
Definition put_self (m : EncMessage) : M unit := fun c => (Ok tt, (m, snd c)).
Definition put_world (w : World) : M unit := fun c => (Ok tt, (fst c, w)).

Definition lift_sum {A} (r : exn + A) : M A :=
  match r with
  | inl e => raise e
  | inr a => ret a
  end.

(** Contents of a list object. *)
Definition list_at (w : World) (l : loc) : list loc := lists w !!! l.

(** [type(r)] *)
Definition type_of (w : World) (r : loc) : PyClass := ob_type (heap w !!! r).

(** [[]]: a new list object. *)
Definition new_list (items : list loc) : M loc :=
  w <- get_world ;;
  let l := fresh (dom (lists w)) in
  put_world (with_lists (<[l := items]> (lists w)) w) ;;;
  ret l.

(** [l.append(r)] *)
Definition list_append (l : loc) (r : loc) : M unit :=
  w <- get_world ;;
  put_world (with_lists (<[l := list_at w l ++ [r]]> (lists w)) w).

(** ** The [recipients] property *)

(** [@property recipients] *)
Definition recipients : M loc :=
  self <- get_self ;; ret (_recipients self).

(** The contents of [self.recipients] at the moment it is read. *)
Definition self_recipients : M (list loc) :=
  l <- recipients ;; w <- get_world ;; ret (list_at w l).

Definition CoseRecipient_repr : string :=
  "<class 'cose.messages.recipient.CoseRecipient'>".

(** The [for r in recipients:] loop of the setter.  A Python list iterator
    keeps an index and looks the list object up again at every step, so the
    loop sees what it appends when [src] is the stored list itself. *)
Fixpoint setter_loop (fuel : nat) (src : loc) (i : nat) : M unit :=
  w <- get_world ;;
  match list_at w src !! i with
  | None => ret tt
  | Some r =>
      match fuel with
      | O => out_of_fuel
      | S fuel' =>
          if negb (issubclass_CoseRecipient (type_of w r))
          then raise (TypeError ("Recipient must be a subclass of " +:+ CoseRecipient_repr))
          else
            self <- get_self ;;
            list_append (_recipients self) r ;;;
            setter_loop fuel' src (S i)
      end
  end.

(** [@recipients.setter] *)
Definition set_recipients (fuel : nat) (recipients : option loc) : M unit :=
  match recipients with
  | None =>
      l <- new_list [] ;;
      self <- get_self ;;
      put_self (with_recipients l self)
  | Some src => setter_loop fuel src 0
  end.

(** [EncMessage.__init__]: the base initialiser stores the five fields, then
    [self._recipients = []] and [self.recipients = recipients].  The object
    is handed to the caller only when the body returns. *)
Definition __init__ (fuel : nat) (phdr uhdr : option Headers)
    (payload external_aad : bytes) (key : option SK)
    (recipients : option loc) (w : World) : Outcome EncMessage * World :=
  let phdr := default [] phdr in
  let uhdr := default [] uhdr in
  let body : M EncMessage :=
    l <- new_list [] ;;
    put_self (mkEncMessage phdr uhdr payload external_aad key l) ;;;
    set_recipients fuel recipients ;;;
    get_self in
  let '(r, (_, w')) :=
    body (mkEncMessage phdr uhdr payload external_aad key 0, w) in
  (r, w').

(** ** Collaborators

    Code outside [encmessage.py] that the class calls.  Recipient methods
    act on the heap of recipient objects and may raise; classification and
    lookup are side-effect free; the common base computes from the fields
    of the envelope and assigns none of them. *)

Class Collaborators := {
  (** [self.get_attr(headers.Algorithm)], from the two header maps *)
  get_attr_Algorithm : Headers -> Headers -> Algorithm;
  (** [self.phdr_encoded], [self.uhdr_encoded] *)
  phdr_encoded : Headers -> Cbor;
  uhdr_encoded : Headers -> Cbor;
  (** [CoseRecipient.verify_recipients(recipients)]: the set of classes *)
  verify_recipients : list loc -> gmap loc PyObject -> exn + list PyClass;
  (** [CoseRecipient.has_recipient(recipient, recipients)] *)
  has_recipient : loc -> list loc -> gmap loc PyObject -> bool;
  (** [r.compute_cek(target_alg, mode)] *)
  compute_cek :
    loc -> Algorithm -> string -> gmap loc PyObject ->
    (exn + SK) * gmap loc PyObject;
  (** [r.encrypt(target_alg)] *)
  recipient_encrypt :
    loc -> Algorithm -> gmap loc PyObject -> (exn + bytes) * gmap loc PyObject;
  (** [r.encode(target_alg=...)] *)
  recipient_encode :
    loc -> Algorithm -> gmap loc PyObject -> (exn + Cbor) * gmap loc PyObject;
  (** [CoseRecipient.create_recipient(r, context=...)] *)
  create_recipient :
    Cbor -> string -> gmap loc PyObject -> (exn + loc) * gmap loc PyObject;
  (** [str(recipient)] inside the f-string of [decrypt] *)
  recipient_str : loc -> gmap loc PyObject -> string;
  (** [super().encrypt()], [super().decrypt()] of the common base *)
  EncCommon_encrypt : EncMessage -> exn + bytes;
  EncCommon_decrypt : EncMessage -> exn + bytes;
  (** [super().from_cose_obj(cose_obj)]: the fields parsed from the front
      of the array and what is left of the array *)
  EncCommon_from_cose_obj :
    list Cbor -> exn + (Headers * Headers * bytes * list Cbor);
  (** [super().encode(message, tag)] *)
  CoseMessage_encode : list Cbor -> bool -> exn + bytes;
  (** [os.urandom(n)] *)
  os_urandom : nat -> Entropy -> bytes * Entropy
}.

Section EncMessage.
Context `{Collaborators}.

(** [self.get_attr(headers.Algorithm)] *)
Definition get_attr_alg (self : EncMessage) : Algorithm :=
  get_attr_Algorithm (phdr self) (uhdr self).

Definition call_verify_recipients (rs : list loc) : M (list PyClass) :=
  w <- get_world ;; lift_sum (verify_recipients rs (heap w)).

Definition call_compute_cek (r : loc) (alg : Algorithm) (mode : string) : M SK :=
  w <- get_world ;;
  let '(res, h') := compute_cek r alg mode (heap w) in
  put_world (log (EvComputeCek r alg mode) (with_heap h' w)) ;;;
  lift_sum res.

Definition call_recipient_encrypt (r : loc) (alg : Algorithm) : M bytes :=
  w <- get_world ;;
  let '(res, h') := recipient_encrypt r alg (heap w) in
  put_world (log (EvRecipientEncrypt r alg (r_payload (heap w !!! r)))
               (with_heap h' w)) ;;;
  lift_sum res.

Definition call_recipient_encode (r : loc) (alg : Algorithm) : M Cbor :=
  w <- get_world ;;
  let '(res, h') := recipient_encode r alg (heap w) in
  put_world (with_heap h' w) ;;;
  lift_sum res.

Definition call_create_recipient (c : Cbor) (context : string) : M loc :=
  w <- get_world ;;
  let '(res, h') := create_recipient c context (heap w) in
  put_world (with_heap h' w) ;;;
  lift_sum res.

Definition call_urandom (n : nat) : M bytes :=
  w <- get_world ;;
  let '(b, g') := os_urandom n (entropy w) in
  put_world (log (EvUrandom n) (with_entropy g' w)) ;;;
  ret b.

(** [super(EncMessage, self).encrypt()] *)
Definition super_encrypt : M bytes :=
  self <- get_self ;;
  w <- get_world ;;
  put_world (log (EvSeal (key self)) w) ;;;
  lift_sum (EncCommon_encrypt self).

(** [super(EncMessage, self).decrypt()] *)
Definition super_decrypt : M bytes :=
  self <- get_self ;;
  w <- get_world ;;
  put_world (log (EvOpen (key self)) w) ;;;
  lift_sum (EncCommon_decrypt self).

(** [self.key = k] *)
Definition set_key (k : SK) : M unit :=
  self <- get_self ;; put_self (with_key (Some k) self).

(** [r.payload = v] *)
Definition set_payload (r : loc) (v : bytes) : M unit :=
  w <- get_world ;;
  let o := heap w !!! r in
  put_world (with_heap (<[r := mkObject (ob_type o) v (r_key o)]> (heap w)) w).

(** ** Decode *)

(** [cose_obj.pop(0)] *)
Definition pop0 (cose_obj : list Cbor) : M (Cbor * list Cbor) :=
  match cose_obj with
  | [] => raise (IndexError "pop from empty list")
  | x :: rest => ret (x, rest)
  end.

(** [iter(x)] for the kinds of item a decoded array holds *)
Definition py_iter (x : Cbor) : M (list Cbor) :=
  match x with
  | CArray items => ret items
  | CBytes b => ret (map (fun c => CInt (Z.of_N (Byte.to_N c))) b)
  | CMap m => ret (map (fun kv => CInt (fst kv)) m)
  | CInt _ => raise (TypeError "'int' object is not iterable")
  end.

(** [[CoseRecipient.create_recipient(r, context='Enc_Recipient') for r in ...]] *)
Fixpoint create_all (items : list Cbor) : M (list loc) :=
  match items with
  | [] => ret []
  | r :: rest =>
      x <- call_create_recipient r "Enc_Recipient" ;;
      xs <- create_all rest ;;
      ret (x :: xs)
  end.

(** The [try] / [except] of [from_cose_obj], run on the message [msg]. *)
Definition decode_recipients (fuel : nat) (cose_obj : list Cbor) : M unit :=
  try_except_Index_Value
    (popped <- pop0 cose_obj ;;
     items <- py_iter (fst popped) ;;
     rs <- create_all items ;;
     l <- new_list rs ;;
     set_recipients fuel (Some l))
    (l <- new_list [] ;;
     set_recipients fuel (Some l)).

(** [EncMessage.from_cose_obj].  The base parse consumes the front of the
    shared array and builds the message through the class constructor, with
    no recipients. *)
Definition from_cose_obj (fuel : nat) (cose_obj : list Cbor) (w : World)
    : Outcome EncMessage * World :=
  match EncCommon_from_cose_obj cose_obj with
  | inl e => (Raise e, w)
  | inr (ph, uh, pl, cose_obj') =>
      match __init__ fuel (Some ph) (Some uh) pl [] None None w with
      | (Ok msg, w1) =>
          match decode_recipients fuel cose_obj' (msg, w1) with
          | (Ok _, (msg', w2)) => (Ok msg', w2)
          | (Raise e, (_, w2)) => (Raise e, w2)
          | (OutOfFuel, (_, w2)) => (OutOfFuel, w2)
          end
      | r => r
      end
  end.

(** ** Encrypt and decrypt *)

(** [self.recipients[0]] *)
Definition index0 (rs : list loc) : M loc :=
  match rs with
  | [] => raise (IndexError "list index out of range")
  | r :: _ => ret r
  end.

(** The [for r in self.recipients:] pass of the key-wrap branch;
    [key_bytes] is the local variable the loop reassigns.  Nothing in the
    body touches a list object, so the pass runs over the contents the list
    has when the loop starts. *)
Fixpoint key_wrap_loop (target_algorithm : Algorithm) (rs : list loc)
    (key_bytes : bytes) : M bytes :=
  match rs with
  | [] => ret key_bytes
  | r :: rest =>
      w <- get_world ;;
      key_bytes <-
        match r_payload (heap w !!! r) with
        | [] => set_payload r key_bytes ;;; ret key_bytes
        | p => ret p
        end ;;
      call_recipient_encrypt r target_algorithm ;;;
      key_wrap_loop target_algorithm rest key_bytes
  end.

Definition Unsupported : exn :=
  CoseException "Unsupported COSE recipient class".

(** [EncMessage.encrypt] *)
Definition encrypt : M bytes :=
  self <- get_self ;;
  let target_algorithm := get_attr_alg self in
  rs <- self_recipients ;;
  r_types <- call_verify_recipients rs ;;
  if bool_decide (DirectEncryption ∈ r_types) then
    super_encrypt
  else if bool_decide (DirectKeyAgreement ∈ r_types) then
    rs <- self_recipients ;;
    r0 <- index0 rs ;;
    cek <- call_compute_cek r0 target_algorithm "encrypt" ;;
    set_key cek ;;;
    super_encrypt
  else if bool_decide (KeyWrap ∈ r_types)
          || bool_decide (KeyAgreementWithKeyWrap ∈ r_types) then
    self <- get_self ;;
    key_bytes <- call_urandom (get_key_length (get_attr_alg self)) ;;
    rs <- self_recipients ;;
    key_bytes <- key_wrap_loop target_algorithm rs key_bytes ;;
    set_key (SymmetricKey key_bytes (Some target_algorithm) [EncryptOp]) ;;;
    super_encrypt
  else
    raise Unsupported.

(** [EncMessage.decrypt] *)
Definition decrypt (recipient : loc) : M bytes :=
  self <- get_self ;;
  let target_algorithm := get_attr_alg self in
  rs <- self_recipients ;;
  w <- get_world ;;
  if negb (has_recipient recipient rs (heap w)) then
    raise (CoseException
             ("Cannot find recipient: " +:+ recipient_str recipient (heap w)))
  else
    rs <- self_recipients ;;
    r_types <- call_verify_recipients rs ;;
    if bool_decide (DirectEncryption ∈ r_types) then
      super_decrypt
    else if bool_decide (DirectKeyAgreement ∈ r_types)
            || bool_decide (KeyWrap ∈ r_types)
            || bool_decide (KeyAgreementWithKeyWrap ∈ r_types) then
      cek <- call_compute_cek recipient target_algorithm "decrypt" ;;
      set_key cek ;;;
      super_decrypt
    else
      raise Unsupported.

(** ** Encode *)

(** [[r.encode(target_alg=self.get_attr(headers.Algorithm)) for r in ...]] *)
Fixpoint encode_all (rs : list loc) : M (list Cbor) :=
  match rs with
  | [] => ret []
  | r :: rest =>
      self <- get_self ;;
      x <- call_recipient_encode r (get_attr_alg self) ;;
      xs <- encode_all rest ;;
      ret (x :: xs)
  end.

(** The array [message] that [encode] hands to the generic container. *)
Definition encode_message (encrypt_flag : bool) : M (list Cbor) :=
  self <- get_self ;;
  let ph := phdr_encoded (phdr self) in
  let uh := uhdr_encoded (uhdr self) in
  body <- (if encrypt_flag then encrypt
           else self <- get_self ;; ret (payload self)) ;;
  let message := [ph; uh; CBytes body] in
  rs <- self_recipients ;;
  if bool_decide (length rs ≠ 0) then
    rs <- self_recipients ;;
    encs <- encode_all rs ;;
    ret (message ++ [CArray encs])
  else
    ret message.

(** [EncMessage.encode] *)
Definition encode (tag encrypt_flag : bool) : M bytes :=
  message <- encode_message encrypt_flag ;;
  lift_sum (CoseMessage_encode message tag).

End EncMessage.

(** ** A reference set of collaborators

    The recipient classes, the common encryption base and the generic
    message container are not part of this file.  The definitions below are
    small executable models of them, written to the interfaces the
    specification gives; the statements further down hold for every set of
    collaborators, and are run against these at the example worlds. *)

Module Reference.

Definition lookup_hdr (label : Z) (h : Headers) : option Z :=
  snd <$> (snd <$> list_find (fun kv => fst kv = label) h).

Definition alg_of_id (z : Z) : Algorithm :=
  mkAlgorithm z
    (match z with
     | 1%Z => 16 | 2%Z => 24 | 3%Z => 32
     | _ => 0
     end).

Definition A128GCM : Algorithm := alg_of_id 1.

(** Modelled from the spec: [get_attr] of the header container is not part
    of this file.  It returns the negotiated algorithm the headers hold
    (label 1), which gives the key length. *)
Definition get_attr_Algorithm (ph uh : Headers) : Algorithm :=
  match lookup_hdr 1 ph with
  | Some z => alg_of_id z
  | None => alg_of_id (default 0%Z (lookup_hdr 1 uh))
  end.

Definition byte_of_Z (z : Z) : byte :=
  default x00 (Byte.of_N (Z.to_N (z mod 256))).

(** Modelled from the spec: the header encodings are not part of this
    file.  The protected header is a byte string, empty for the empty map;
    the unprotected header is a map. *)
Definition phdr_encoded (ph : Headers) : Cbor :=
  CBytes (flat_map (fun kv => [byte_of_Z (fst kv); byte_of_Z (snd kv)]) ph).

Definition uhdr_encoded (uh : Headers) : Cbor := CMap uh.

(** Modelled from the spec: [verify_recipients] is not part of this file.
    The classification returns the single variant all recipients share and
    signals an empty or a mixed recipient set as an Unsupported Recipient
    Class error. *)
Definition verify_recipients (rs : list loc) (h : gmap loc PyObject)
    : exn + list PyClass :=
  match remove_dups (map (fun r => ob_type (h !!! r)) rs) with
  | [c] => inr [c]
  | _ => inl Unsupported
  end.

(** Modelled from the spec: [has_recipient] is not part of this file.  The
    lookup is by identity in the given recipient list. *)
Definition has_recipient (r : loc) (rs : list loc) (h : gmap loc PyObject)
    : bool :=
  bool_decide (r ∈ rs).

Definition key_op_of_mode (mode : string) : KeyOp :=
  if String.eqb mode "encrypt" then EncryptOp else DecryptOp.

(** Modelled from the spec: [compute_cek] of the recipient classes is not
    part of this file.  It returns key material for the given algorithm and
    mode: key agreement derives it from the recipient's own key, the
    wrapping variants recover it from the carrier payload. *)
Definition compute_cek (r : loc) (alg : Algorithm) (mode : string)
    (h : gmap loc PyObject) : (exn + SK) * gmap loc PyObject :=
  let o := h !!! r in
  match ob_type o with
  | DirectKeyAgreement =>
      (inr (SymmetricKey (r_key o) (Some alg) [key_op_of_mode mode]), h)
  | KeyWrap | KeyAgreementWithKeyWrap =>
      (inr (SymmetricKey (r_payload o) (Some alg) [key_op_of_mode mode]), h)
  | _ => (inl (CoseException "no key derivation for this recipient"), h)
  end.

(** Modelled from the spec: [encrypt] of the recipient classes is not part
    of this file.  The recipient wraps the key material its carrier payload
    holds and returns the wrapped bytes. *)
Definition recipient_encrypt (r : loc) (alg : Algorithm)
    (h : gmap loc PyObject) : (exn + bytes) * gmap loc PyObject :=
  let o := h !!! r in
  (inr (r_payload o ++ r_key o), h).

Definition alg_of_class (c : PyClass) : Z :=
  match c with
  | DirectEncryption => -6
  | DirectKeyAgreement => -25
  | KeyWrap => -3
  | KeyAgreementWithKeyWrap => -29
  | _ => 0
  end%Z.

Definition class_of_alg (z : Z) : option PyClass :=
  match z with
  | -6 => Some DirectEncryption
  | -25 => Some DirectKeyAgreement
  | -3 => Some KeyWrap
  | -29 => Some KeyAgreementWithKeyWrap
  | _ => None
  end%Z.

(** Modelled from the spec: [encode] of the recipient classes is not part
    of this file.  A recipient structure is an array of its protected
    header, its unprotected header (naming its algorithm) and its payload. *)
Definition recipient_encode (r : loc) (alg : Algorithm)
    (h : gmap loc PyObject) : (exn + Cbor) * gmap loc PyObject :=
  let o := h !!! r in
  (inr (CArray [CBytes []; CMap [(1%Z, alg_of_class (ob_type o))];
                CBytes (r_payload o)]), h).

(** Modelled from the spec: the factory [create_recipient] is not part of
    this file.  A recipient structure is itself an array (section 6 of the
    specification); the factory reads the protected header, the unprotected
    header and the payload off it by position and reconstructs a recipient
    object of the variant the algorithm in the unprotected header names.
    Reading by position fails as Python's sequence access does: with a
    [TypeError] on an item that is not an array, with an [IndexError] on an
    array that has fewer than three elements.  Elements of the wrong kind
    are a [TypeError] as well; a structure that names no algorithm, or the
    algorithm of no variant, is refused with the library's
    [CoseException]. *)
Definition create_recipient (c : Cbor) (context : string)
    (h : gmap loc PyObject) : (exn + loc) * gmap loc PyObject :=
  match c with
  | CArray (CBytes _ :: CMap m :: CBytes p :: _) =>
      match lookup_hdr 1 m with
      | None => (inl (CoseException "recipient without an algorithm"), h)
      | Some z =>
          match class_of_alg z with
          | Some cls =>
              let l := fresh (dom h) in
              (inr l, <[l := mkObject cls p []]> h)
          | None => (inl (CoseException "unsupported recipient algorithm"), h)
          end
      end
  | CArray (_ :: _ :: _ :: _) =>
      (inl (TypeError "malformed recipient structure"), h)
  | CArray _ => (inl (IndexError "list index out of range"), h)
  | _ => (inl (TypeError "object is not subscriptable"), h)
  end.

Definition recipient_str (r : loc) (h : gmap loc PyObject) : string :=
  "<COSE_Recipient>".

(** Modelled from the spec: [encrypt] and [decrypt] of the common base are
    not part of this file.  They seal and open the payload over the key, the
    headers and the external data, and fail without a key or when the tag
    does not match.  Here the key bytes follow the payload as the tag. *)
Definition EncCommon_encrypt (self : EncMessage) : exn + bytes :=
  match key self with
  | None => inl (CoseException "key is not set")
  | Some k => inr (payload self ++ sk_key k)
  end.

Definition bytes_eqb (a b : bytes) : bool :=
  bool_decide (map Byte.to_N a = map Byte.to_N b).

Definition EncCommon_decrypt (self : EncMessage) : exn + bytes :=
  match key self with
  | None => inl (CoseException "key is not set")
  | Some k =>
      let n := length (payload self) - length (sk_key k) in
      if bytes_eqb (drop n (payload self)) (sk_key k)
      then inr (take n (payload self))
      else inl (CoseException "authentication failure")
  end.

Fixpoint hdr_of_bytes (b : bytes) : Headers :=
  match b with
  | k :: v :: rest =>
      (Z.of_N (Byte.to_N k), Z.of_N (Byte.to_N v)) :: hdr_of_bytes rest
  | _ => []
  end.

(** Modelled from the spec: the base [from_cose_obj] is not part of this
    file.  It parses the base three-element array, popping the protected
    header, the unprotected header and the payload off the front. *)
Definition EncCommon_from_cose_obj (cose_obj : list Cbor)
    : exn + (Headers * Headers * bytes * list Cbor) :=
  match cose_obj with
  | CBytes ph :: CMap uh :: CBytes pl :: rest =>
      inr (hdr_of_bytes ph, uh, pl, rest)
  | _ :: _ :: _ :: _ => inl (ValueError "malformed COSE structure")
  | _ => inl (IndexError "pop from empty list")
  end.

Fixpoint serialize (c : Cbor) : bytes :=
  match c with
  | CInt z => [x00; byte_of_Z z]
  | CBytes b => x40 :: byte_of_Z (Z.of_nat (length b)) :: b
  | CMap m =>
      xa0 :: byte_of_Z (Z.of_nat (length m))
          :: flat_map (fun kv => [byte_of_Z (fst kv); byte_of_Z (snd kv)]) m
  | CArray items =>
      x80 :: byte_of_Z (Z.of_nat (length items)) :: flat_map serialize items
  end.

(** Modelled from the spec: [encode] of the generic message container is
    not part of this file.  It serialises the array, under the tag of this
    message type (96) when asked to. *)
Definition CoseMessage_encode (message : list Cbor) (tag : bool)
    : exn + bytes :=
  inr ((if tag then [xd8; x60] else []) ++ serialize (CArray message)).

(** [os.urandom]: [n] bytes drawn from the entropy state. *)
Definition os_urandom (n : nat) (g : Entropy) : bytes * Entropy :=
  (map (fun i => byte_of_Z (Z.of_nat (g + i))) (seq 0 n), g + n).

Definition collaborators : Collaborators :=
  Build_Collaborators
    get_attr_Algorithm phdr_encoded uhdr_encoded
    verify_recipients has_recipient
    compute_cek recipient_encrypt recipient_encode create_recipient
    recipient_str
    EncCommon_encrypt EncCommon_decrypt EncCommon_from_cose_obj
    CoseMessage_encode os_urandom.

End Reference.


(** ** Vocabulary of the statements *)

(** The world after the setter's loop has appended [items] to the stored
    list (a loop that appends nothing leaves the world as it is). *)
Definition appended (self : EncMessage) (items : list loc) (w : World) : World :=
  match items with
  | [] => w
  | _ =>
      with_lists
        (<[_recipients self := list_at w (_recipients self) ++ items]> (lists w))
        w
  end.

(** The element passes the setter's [issubclass] check. *)
Definition valid_recipient (w : World) (r : loc) : Prop :=
  issubclass_CoseRecipient (type_of w r) = true.

#[global] Instance valid_recipient_dec w r : Decision (valid_recipient w r).
Proof. unfold valid_recipient. apply _. Defined.

(** The world after a new empty list object has been allocated, as by
    [self._recipients = []] in the constructor. *)
Definition init_world (w : World) : World :=
  with_lists (<[fresh (dom (lists w)) := []]> (lists w)) w.

(** The message [super().from_cose_obj] hands back, and the world it
    leaves: built by the constructor with no recipients. *)
Definition parsed (ph uh : Headers) (pl : bytes) (w : World) : Config :=
  let l := fresh (dom (lists (init_world w))) in
  (mkEncMessage ph uh pl [] None l,
   with_lists (<[l := []]> (lists (init_world w))) (init_world w)).

(** The type error of the setter. *)
Definition not_a_recipient : exn :=
  TypeError ("Recipient must be a subclass of " +:+ CoseRecipient_repr).

(** The carrier payloads of the recipients [rs], in order. *)
Definition carriers (h : gmap loc PyObject) (rs : list loc) : list bytes :=
  map (fun r => r_payload (h !!! r)) rs.

(** Key-wrap pass, in the words of the specification: a recipient whose
    carrier payload is empty takes the current key bytes; a carrier payload
    that is not empty becomes the current key bytes from there on. *)
Definition settle_one (current carrier : bytes) : bytes :=
  match carrier with
  | [] => current
  | _ => carrier
  end.

(** The key bytes in force after each visit of the pass. *)
Fixpoint settled_keys (current : bytes) (cs : list bytes) : list bytes :=
  match cs with
  | [] => []
  | c :: cs' => settle_one current c :: settled_keys (settle_one current c) cs'
  end.

(** The key bytes in force when the pass ends. *)
Definition settled_key (current : bytes) (cs : list bytes) : bytes :=
  fold_left settle_one cs current.

(** The recipient objects after the recipient [r] has been assigned the
    current key bytes, which happens when its carrier payload is empty. *)
Definition take_current (r : loc) (current : bytes) (h : gmap loc PyObject)
    : gmap loc PyObject :=
  let o := h !!! r in
  match r_payload o with
  | [] => <[r := mkObject (ob_type o) current (r_key o)]> h
  | _ => h
  end.

(** The pass of the key-wrap branch in the words of the specification
    (section 4.3, step 4), over the recipient objects as each visit finds
    them: a recipient whose carrier payload is empty is assigned the current
    key bytes; a carrier payload that is not empty becomes the current key
    bytes for the recipients after it; the recipient is then asked to wrap
    the settled bytes (its [encrypt], recorded with those bytes).  The pass
    ends with the bytes in force after the last recipient, or with the error
    of the first recipient whose [encrypt] raises; it gives the recipient
    objects it leaves and the calls it has made, in order. *)
Fixpoint wrap_pass `{Collaborators} (alg : Algorithm) (rs : list loc)
    (current : bytes) (h : gmap loc PyObject)
    : (exn + bytes) * gmap loc PyObject * list Event :=
  match rs with
  | [] => (inr current, h, [])
  | r :: rest =>
      let settled := settle_one current (r_payload (h !!! r)) in
      match recipient_encrypt r alg (take_current r current h) with
      | (inl e, h') => (inl e, h', [EvRecipientEncrypt r alg settled])
      | (inr _, h') =>
          match wrap_pass alg rest settled h' with
          | (res, h'', calls) =>
              (res, h'', EvRecipientEncrypt r alg settled :: calls)
          end
      end
  end.

Definition outcome_of_sum {A} (r : exn + A) : Outcome A :=
  match r with
  | inl e => Raise e
  | inr a => Ok a
  end.

(** The recipient set of the envelope classifies as one of the variants of
    the [if] / [elif] chain of [encrypt]. *)
Definition classifies `{Collaborators} (self : EncMessage) (w : World)
    (P : list PyClass → Prop) : Prop :=
  ∃ r_types,
    verify_recipients (list_at w (_recipients self)) (heap w) = inr r_types
    ∧ P r_types.

Definition as_direct_key_agreement (r_types : list PyClass) : Prop :=
  (DirectEncryption ∉ r_types) ∧ DirectKeyAgreement ∈ r_types.

Definition as_key_wrap (r_types : list PyClass) : Prop :=
  (DirectEncryption ∉ r_types) ∧ (DirectKeyAgreement ∉ r_types)
  ∧ (KeyWrap ∈ r_types ∨ KeyAgreementWithKeyWrap ∈ r_types).

(** Modelled from the spec: [has_recipient] is not part of this file.  Its
    contract: only a recipient that is in the list is found. *)
Definition lookup_by_identity `{Collaborators} : Prop :=
  ∀ r rs h, has_recipient r rs h = true → r ∈ rs.

(** What a call leaves of the key: an envelope that held a key still holds
    one, and if the call has run the AEAD step (the event [aead cek] is
    among the calls it made), the key stored afterwards is the one that
    step ran with. *)
Definition key_kept (aead : option SK → Event) (self : EncMessage) (w : World)
    (after : Config) : Prop :=
  (is_Some (key self) → is_Some (key (fst after)))
  ∧ ∃ new,
      trace (snd after) = trace w ++ new
      ∧ ∀ cek, aead cek ∈ new → key (fst after) = cek.

Definition is_wrap_event (e : Event) : Prop :=
  match e with
  | EvRecipientEncrypt _ _ _ => True
  | _ => False
  end.

(** The factory applied to each wire structure in order. *)
Fixpoint factory_run `{Collaborators} (items : list Cbor)
    (h : gmap loc PyObject) : (exn + list loc) * gmap loc PyObject :=
  match items with
  | [] => (inr [], h)
  | c :: rest =>
      match create_recipient c "Enc_Recipient" h with
      | (inl e, h') => (inl e, h')
      | (inr l, h') =>
          match factory_run rest h' with
          | (inl e, h'') => (inl e, h'')
          | (inr ls, h'') => (inr (l :: ls), h'')
          end
      end
  end.

(** Each recipient's own encoding under [alg], in order. *)
Fixpoint encode_run `{Collaborators} (alg : Algorithm) (rs : list loc)
    (h : gmap loc PyObject) : (exn + list Cbor) * gmap loc PyObject :=
  match rs with
  | [] => (inr [], h)
  | r :: rest =>
      match recipient_encode r alg h with
      | (inl e, h') => (inl e, h')
      | (inr c, h') =>
          match encode_run alg rest h' with
          | (inl e, h'') => (inl e, h'')
          | (inr cs, h'') => (inr (c :: cs), h'')
          end
      end
  end.

(** ** Example worlds *)

Module Examples.

Definition K16 : bytes :=
  [x00; x01; x02; x03; x04; x05; x06; x07;
   x08; x09; x0a; x0b; x0c; x0d; x0e; x0f].

Definition preset_key : SK :=
  SymmetricKey K16 (Some Reference.A128GCM) [EncryptOp].

(** Objects 1-3 are key-wrap recipients (the second one pre-populated),
    4 is a direct-encryption recipient, 5 and 7 are direct-key-agreement
    ones, and 6 is not a recipient at all. *)
Definition objects : gmap loc PyObject :=
  list_to_map
    [(1, mkObject KeyWrap [] [x11]);
     (2, mkObject KeyWrap [xaa; xbb] [x22]);
     (3, mkObject KeyWrap [] [x33]);
     (4, mkObject DirectEncryption [] []);
     (5, mkObject DirectKeyAgreement [] [x55; x56]);
     (6, mkObject NotCoseRecipient [] []);
     (7, mkObject DirectKeyAgreement [] [x77])].

(** List objects: 10 is empty, the others hold the recipient sets of the
    examples. *)
Definition list_objects : gmap loc (list loc) :=
  list_to_map
    [(10, []); (11, [1; 2; 3]); (12, [4]); (13, [5; 7]);
     (14, [4; 1]); (15, [1; 6; 2]); (16, [1])].

Definition world : World := mkWorld objects list_objects 7 [].

(** An envelope over the list object [l], payload [b"hi"], algorithm
    A128GCM in the protected header. *)
Definition envelope (k : option SK) (l : loc) : EncMessage :=
  mkEncMessage [(1, 1)%Z] [] [x68; x69] [] k l.

(** Wire arrays: without recipients, with one key-wrap recipient, with a
    recipient structure that is not an array, and with one that is an array
    without elements. *)
Definition wire3 : list Cbor := [CBytes [x01; x01]; CMap []; CBytes [x68; x69]].

Definition wire_recipient : Cbor :=
  CArray [CBytes []; CMap [(1, -3)%Z]; CBytes [xaa; xbb]].

Definition wire4 : list Cbor := wire3 ++ [CArray [wire_recipient]].

Definition wire_malformed : list Cbor := wire3 ++ [CArray [CInt 0]].

Definition wire_short : list Cbor := wire3 ++ [CArray [CArray []]].

End Examples.

(** A recipient's [encrypt] returns the wrapped bytes and assigns no
    carrier payload, its own included. *)
Definition wrap_keeps_carriers `{Collaborators} : Prop :=
  ∀ r alg h r',
    r_payload (snd (recipient_encrypt r alg h) !!! r') = r_payload (h !!! r').

(** The fields of the envelope other than the key. *)
Definition same_but_key (m m' : EncMessage) : Prop :=
  phdr m' = phdr m ∧ uhdr m' = uhdr m ∧ payload m' = payload m
  ∧ external_aad m' = external_aad m ∧ _recipients m' = _recipients m.

(** The classification names none of the four variants. *)
Definition names_no_variant (r_types : list PyClass) : Prop :=
  (DirectEncryption ∉ r_types) ∧ (DirectKeyAgreement ∉ r_types)
  ∧ (KeyWrap ∉ r_types) ∧ (KeyAgreementWithKeyWrap ∉ r_types).

(** ** Further example worlds *)

Module Cases.

(** Besides the objects of [Examples]: 8 is an instance of some other
    subclass of [CoseRecipient], 9 a pre-populated key-wrap recipient. *)
Definition objects : gmap loc PyObject :=
  <[8 := mkObject OtherCoseRecipient [] []]>
    (<[9 := mkObject KeyWrap [xcc; xdd] [x99]]> Examples.objects).

(** Besides the list objects of [Examples]: recipients of an unknown
    variant (17), two key-wrap recipients with empty carriers (18), the
    same followed by a pre-populated one (19). *)
Definition list_objects : gmap loc (list loc) :=
  <[17 := [8]]> (<[18 := [1; 3]]> (<[19 := [1; 3; 9]]> Examples.list_objects)).

Definition world : World := mkWorld objects list_objects 7 [].

(** The same world with two more list objects in which the first key-wrap
    recipient occurs twice: around the pre-populated one (20), and around
    another one with an empty carrier (21). *)
Definition repeated : World :=
  mkWorld objects (<[20 := [1; 2; 1]]> (<[21 := [1; 3; 1]]> list_objects)) 7 [].


(** Collaborators whose factory hands back an object that is not a
    recipient (object 6) for every wire structure. *)
Definition careless_factory : Collaborators :=
  Build_Collaborators
    Reference.get_attr_Algorithm Reference.phdr_encoded Reference.uhdr_encoded
    Reference.verify_recipients Reference.has_recipient
    Reference.compute_cek Reference.recipient_encrypt Reference.recipient_encode
    (fun _ _ h => (inr 6, h))
    Reference.recipient_str
    Reference.EncCommon_encrypt Reference.EncCommon_decrypt
    Reference.EncCommon_from_cose_obj
    Reference.CoseMessage_encode Reference.os_urandom.

End Cases.

(** ** The setter loop *)

(** Unfold the monad of method bodies. *)
Ltac munfold :=
  unfold bind, ret, raise, out_of_fuel, get_self, get_world, put_self,
    put_world, lift_sum, recipients, self_recipients, list_append, new_list;
  cbn.

(** Membership of an AEAD event in an explicit list of events. *)
Ltac solve_events :=
  let cek := fresh "cek" in
  let Hin := fresh "Hin" in
  intros cek Hin; set_unfold in Hin; naive_solver.

(** A decidable closed proposition, by evaluation. *)
Ltac by_decision := apply (bool_decide_unpack _); vm_compute; exact I.

Lemma list_at_appended_stored self items w :
  list_at (appended self items w) (_recipients self)
  = list_at w (_recipients self) ++ items.
Proof.
  destruct items as [|x items]; cbn; [by rewrite app_nil_r|].
  unfold list_at; cbn. by rewrite lookup_total_insert_eq.
Qed.

Lemma list_at_appended_other self items w l :
  l ≠ _recipients self → list_at (appended self items w) l = list_at w l.
Proof.
  intros Hne. destruct items as [|x items]; cbn; [done|].
  unfold list_at; cbn. by rewrite lookup_total_insert_ne.
Qed.

Lemma appended_app self xs ys w :
  appended self ys (appended self xs w) = appended self (xs ++ ys) w.
Proof.
  destruct ys as [|y ys]; [by rewrite app_nil_r|].
  destruct xs as [|x xs]; [done|].
  unfold appended at 1. rewrite list_at_appended_stored.
  cbn. unfold with_lists; cbn.
  by rewrite insert_insert_eq, <- app_assoc.
Qed.

Lemma heap_appended self items w : heap (appended self items w) = heap w.
Proof. by destruct items. Qed.

Lemma trace_appended self items w : trace (appended self items w) = trace w.
Proof. by destruct items. Qed.

Lemma entropy_appended self items w :
  entropy (appended self items w) = entropy w.
Proof. by destruct items. Qed.

Lemma valid_recipient_appended self items w r :
  valid_recipient (appended self items w) r ↔ valid_recipient w r.
Proof. unfold valid_recipient, type_of. by rewrite heap_appended. Qed.

Lemma setter_loop_stop fuel src i self w :
  list_at w src !! i = None →
  setter_loop fuel src i (self, w) = (Ok tt, (self, w)).
Proof. intros Hi. destruct fuel; cbn; munfold; by rewrite Hi. Qed.

Lemma setter_loop_step fuel src i self w r :
  list_at w src !! i = Some r →
  valid_recipient w r →
  setter_loop (S fuel) src i (self, w)
  = setter_loop fuel src (S i) (self, appended self [r] w).
Proof.
  intros Hi Hv. cbn. munfold. rewrite Hi. cbn.
  unfold valid_recipient in Hv. rewrite Hv. cbn. munfold. done.
Qed.

Lemma setter_loop_reject fuel src i self w r :
  list_at w src !! i = Some r →
  ¬ valid_recipient w r →
  setter_loop (S fuel) src i (self, w) = (Raise not_a_recipient, (self, w)).
Proof.
  intros Hi Hv. cbn. munfold. rewrite Hi. cbn.
  unfold valid_recipient in Hv.
  destruct (issubclass_CoseRecipient (type_of w r)); [done|]. by cbn.
Qed.

(** Running the loop over a stretch [todo] of valid elements, whether or
    not the list iterated is the stored list itself (in which case it has
    grown by [extra] meanwhile). *)
Lemma setter_loop_prefix src self todo :
  ∀ done_ tail fuel w,
    list_at w src = done_ ++ todo ++ tail →
    Forall (valid_recipient w) todo →
    setter_loop (length todo + fuel) src (length done_) (self, w)
    = setter_loop fuel src (length done_ + length todo)
        (self, appended self todo w)
      ∧ ∃ extra,
          list_at (appended self todo w) src = done_ ++ todo ++ tail ++ extra
          ∧ (src ≠ _recipients self → extra = []).
Proof.
  induction todo as [|r todo IH]; intros done_ tail fuel w Hsrc Hv.
  - cbn. rewrite Nat.add_0_r. split; [done|].
    exists []. by rewrite app_nil_r.
  - apply Forall_cons in Hv as [Hr Hv].
    assert (Hi : list_at w src !! length done_ = Some r).
    { rewrite Hsrc. cbn. by apply list_lookup_middle. }
    cbn [length Nat.add]. rewrite (setter_loop_step _ _ _ _ _ _ Hi Hr).
    assert (∃ e1, list_at (appended self [r] w) src
                  = (done_ ++ [r]) ++ todo ++ (tail ++ e1)
                  ∧ (src ≠ _recipients self → e1 = []))
      as (e1 & Hsrc1 & He1).
    { destruct (decide (src = _recipients self)) as [->|Hne].
      - exists [r]. split; [|done].
        rewrite list_at_appended_stored, Hsrc.
        by rewrite <- !app_assoc.
      - exists []. split; [|done].
        rewrite list_at_appended_other by done. rewrite Hsrc.
        by rewrite app_nil_r, <- app_assoc. }
    assert (Hv1 : Forall (valid_recipient (appended self [r] w)) todo).
    { eapply Forall_impl; [exact Hv|]. intros x. by apply valid_recipient_appended. }
    destruct (IH (done_ ++ [r]) (tail ++ e1) fuel _ Hsrc1 Hv1)
      as (Heq & extra & Hsrc' & Hextra).
    rewrite appended_app in Heq, Hsrc'.
    change ([r] ++ todo) with (r :: todo) in Heq, Hsrc'.
    rewrite length_app in Heq. cbn [length] in Heq.
    replace (length done_ + 1) with (S (length done_)) in Heq by lia.
    split.
    + rewrite Heq. f_equal. lia.
    + exists (e1 ++ extra). split.
      * rewrite Hsrc'. by rewrite <- !app_assoc.
      * intros Hne. by rewrite (He1 Hne), (Hextra Hne).
Qed.

(** The loop stops at the first element that is not a recipient, after it
    has appended the elements in front of it. *)
Lemma setter_loop_first_invalid fuel src self w pre bad post :
  list_at w src = pre ++ bad :: post →
  Forall (valid_recipient w) pre →
  ¬ valid_recipient w bad →
  length pre < fuel →
  setter_loop fuel src 0 (self, w)
  = (Raise not_a_recipient, (self, appended self pre w)).
Proof.
  intros Hsrc Hv Hbad Hfuel.
  replace fuel with (length pre + S (fuel - S (length pre))) by lia.
  destruct (setter_loop_prefix src self pre [] (bad :: post)
              (S (fuel - S (length pre))) w Hsrc Hv)
    as (Heq & extra & Hsrc' & _).
  cbn [length] in Heq. rewrite Heq. cbn [Nat.add].
  apply setter_loop_reject with (r := bad).
  - rewrite Hsrc'. cbn. by apply list_lookup_middle.
  - by rewrite valid_recipient_appended.
Qed.

(** A list object other than the stored one, all of whose elements are
    recipients, is appended to the stored list. *)
Lemma setter_loop_appends fuel src self w :
  src ≠ _recipients self →
  Forall (valid_recipient w) (list_at w src) →
  length (list_at w src) ≤ fuel →
  setter_loop fuel src 0 (self, w)
  = (Ok tt, (self, appended self (list_at w src) w)).
Proof.
  intros Hne Hv Hfuel.
  replace fuel with (length (list_at w src) + (fuel - length (list_at w src)))
    by lia.
  destruct (setter_loop_prefix src self (list_at w src) [] []
              (fuel - length (list_at w src)) w) as (Heq & extra & Hsrc' & Hextra).
  { by rewrite app_nil_r. }
  { done. }
  cbn [length] in Heq. rewrite Heq. cbn [Nat.add].
  apply setter_loop_stop.
  rewrite Hsrc', (Hextra Hne). cbn. rewrite !app_nil_r.
  by apply lookup_ge_None.
Qed.

(** Iterating the stored list itself: every element visited is appended
    behind the iterator, so the index never reaches the end. *)
Lemma setter_loop_alias_diverges fuel self :
  ∀ i w,
    i < length (list_at w (_recipients self)) →
    Forall (valid_recipient w) (list_at w (_recipients self)) →
    fst (setter_loop fuel (_recipients self) i (self, w)) = OutOfFuel.
Proof.
  induction fuel as [|fuel IH]; intros i w Hi Hv.
  - destruct (lookup_lt_is_Some_2 _ _ Hi) as [r Hr].
    cbn. munfold. by rewrite Hr.
  - destruct (lookup_lt_is_Some_2 _ _ Hi) as [r Hr].
    assert (Hvr : valid_recipient w r).
    { eapply Forall_lookup_1; [exact Hv|exact Hr]. }
    rewrite (setter_loop_step _ _ _ _ _ _ Hr Hvr).
    apply IH.
    + rewrite list_at_appended_stored, length_app. cbn. lia.
    + rewrite list_at_appended_stored. apply Forall_app. split.
      * eapply Forall_impl; [exact Hv|]. intros x.
        by apply valid_recipient_appended.
      * apply Forall_singleton. by apply valid_recipient_appended.
Qed.

(** ** The setter and the constructor *)

Lemma list_at_allocated w l : list_at w l ≠ [] → l ∈ dom (lists w).
Proof.
  intros Hne. apply elem_of_dom. unfold list_at in Hne.
  rewrite lookup_total_alt in Hne.
  destruct (lists w !! l); [eauto|done].
Qed.

Lemma fresh_list_ne w l : list_at w l ≠ [] → l ≠ fresh (dom (lists w)).
Proof.
  intros Hne ->. by apply (is_fresh (dom (lists w))), list_at_allocated.
Qed.

Lemma list_at_unallocated w l : l ∉ dom (lists w) → list_at w l = [].
Proof.
  intros Hl. apply not_elem_of_dom in Hl. unfold list_at.
  by rewrite lookup_total_alt, Hl.
Qed.

(** Assigning [None] stores a new, empty list object; the list object
    stored before is left as it was. *)
Lemma set_recipients_None fuel self w :
  set_recipients fuel None (self, w)
  = (Ok tt,
     (with_recipients (fresh (dom (lists w))) self,
      with_lists (<[fresh (dom (lists w)) := []]> (lists w)) w)).
Proof. done. Qed.

(** Assigning a list object other than the stored one, all of whose
    elements are recipients: the stored list object is kept, and is extended
    in place by the elements of the assigned list. *)
Lemma set_recipients_appends fuel self w src :
  src ≠ _recipients self →
  Forall (valid_recipient w) (list_at w src) →
  length (list_at w src) ≤ fuel →
  set_recipients fuel (Some src) (self, w)
  = (Ok tt, (self, appended self (list_at w src) w)).
Proof. apply setter_loop_appends. Qed.

Lemma init_world_list_at w l :
  list_at (init_world w) l = list_at w l.
Proof.
  unfold init_world, list_at; cbn.
  destruct (decide (l = fresh (dom (lists w)))) as [->|Hne].
  - rewrite lookup_total_insert_eq. symmetry.
    apply (list_at_unallocated w), is_fresh.
  - by rewrite lookup_total_insert_ne.
Qed.

Lemma init_unfold fuel ph uh pl aad k rec w :
  __init__ fuel ph uh pl aad k rec w
  = let self := mkEncMessage (default [] ph) (default [] uh) pl aad k
                  (fresh (dom (lists w))) in
    match set_recipients fuel rec (self, init_world w) with
    | (Ok _, (self', w')) => (Ok self', w')
    | (Raise e, (_, w')) => (Raise e, w')
    | (OutOfFuel, (_, w')) => (OutOfFuel, w')
    end.
Proof.
  unfold __init__. munfold.
  fold (init_world w).
  destruct (set_recipients fuel rec _) as [[[]| |] [self' w']]; done.
Qed.

(** Constructing with a list of recipients stores exactly that list, in a
    list object of the envelope's own. *)
Lemma init_stores_recipients fuel ph uh pl aad k src w :
  Forall (valid_recipient w) (list_at w src) →
  length (list_at w src) ≤ fuel →
  ∃ msg w',
    __init__ fuel ph uh pl aad k (Some src) w = (Ok msg, w')
    ∧ list_at w' (_recipients msg) = list_at w src
    ∧ (_recipients msg ∉ dom (lists w))
    ∧ key msg = k ∧ payload msg = pl ∧ heap w' = heap w.
Proof.
  intros Hv Hfuel. rewrite init_unfold. cbn zeta.
  set (self := mkEncMessage _ _ _ _ _ _).
  destruct (decide (list_at w src = [])) as [Hnil|Hne].
  - cbn. rewrite setter_loop_stop.
    + exists self, (init_world w).
      split; [done|]. split; [|split; [apply is_fresh|done]].
      rewrite init_world_list_at, Hnil.
      apply list_at_unallocated, is_fresh.
    + by rewrite init_world_list_at, Hnil.
  - assert (Hfr : src ≠ _recipients self) by (by apply fresh_list_ne).
    assert (Hv' : Forall (valid_recipient (init_world w))
                    (list_at (init_world w) src)).
    { rewrite init_world_list_at. exact Hv. }
    assert (Hf' : length (list_at (init_world w) src) ≤ fuel).
    { by rewrite init_world_list_at. }
    rewrite (set_recipients_appends fuel self (init_world w) src Hfr Hv' Hf').
    exists self, (appended self (list_at (init_world w) src) (init_world w)).
    split; [done|]. split; [|split; [apply is_fresh|]].
    + rewrite list_at_appended_stored, !init_world_list_at.
      by rewrite (list_at_unallocated w (_recipients self)) by apply is_fresh.
    + by rewrite heap_appended.
Qed.

(** C2 (amended).  Assigning a recipient list, through the setter or at
    construction, fails with the type error at the first element that is
    not a subclass of [CoseRecipient]; the elements in front of it have by
    then been appended, so after a failed assignment through the setter the
    stored list is the list stored before followed by those elements. *)
Theorem set_recipients_first_invalid fuel self w src pre bad post
    ph uh pl aad k :
  list_at w src = pre ++ bad :: post →
  Forall (valid_recipient w) pre →
  ¬ valid_recipient w bad →
  length pre < fuel →
  (∃ w',
     set_recipients fuel (Some src) (self, w) = (Raise not_a_recipient, (self, w'))
     ∧ list_at w' (_recipients self) = list_at w (_recipients self) ++ pre
     ∧ heap w' = heap w)
  ∧ fst (__init__ fuel ph uh pl aad k (Some src) w) = Raise not_a_recipient.
Proof.
  intros Hsrc Hv Hbad Hfuel. split.
  - exists (appended self pre w). split; [|split].
    + by apply setter_loop_first_invalid with (bad := bad) (post := post).
    + apply list_at_appended_stored.
    + apply heap_appended.
  - rewrite init_unfold. cbn zeta.
    unfold set_recipients.
    erewrite setter_loop_first_invalid with (pre := pre) (bad := bad) (post := post);
      try done.
    by rewrite init_world_list_at.
Qed.

Lemma set_recipients_first_invalid_witness :
  ∃ w',
    set_recipients 3 (Some 15) (Examples.envelope None 16, Examples.world)
    = (Raise not_a_recipient, (Examples.envelope None 16, w'))
    ∧ list_at w' 16 = [1] ++ [1].
Proof.
  destruct (set_recipients_first_invalid 3 (Examples.envelope None 16)
              Examples.world 15 [1] 6 [2] None None [] [] None)
    as [(w' & Hrun & Hlist & _) _].
  - reflexivity.
  - repeat constructor.
  - vm_compute. discriminate.
  - cbn. lia.
  - exists w'. split; [exact Hrun|exact Hlist].
Defined.

(** C2 as stated fails: assigning [[r1, x, r2]], with [x] not a recipient,
    to an envelope holding [[r1]] raises the type error and leaves
    [[r1, r1]] stored. *)
Lemma set_recipients_not_atomic :
  let c := (Examples.envelope None 16, Examples.world) in
  let r := set_recipients 3 (Some 15) c in
  fst r = Raise not_a_recipient
  ∧ list_at (snd c) (_recipients (fst c)) = [1]
  ∧ list_at (snd (snd r)) (_recipients (fst (snd r))) = [1; 1].
Proof. vm_compute. done. Qed.

(** C10, at the input where it fails.  The envelope holds [[r1]] and is
    assigned its own stored list ([m.recipients = m.recipients], which
    is also what [m.recipients += [r]] ends in): the loop iterates the list
    it appends to and does not return, whatever the step bound. *)
Theorem set_recipients_self_assignment_diverges :
  ∀ fuel,
    fst (set_recipients fuel (Some 16)
           (Examples.envelope None 16, Examples.world)) = OutOfFuel.
Proof.
  intros fuel.
  apply (setter_loop_alias_diverges fuel (Examples.envelope None 16) 0
           Examples.world).
  - vm_compute. lia.
  - repeat constructor.
Qed.

(** ** Decode *)

Section Decode.
Context `{Collaborators}.

(** The list comprehension of [from_cose_obj] is the factory run over the
    items. *)
Lemma create_all_factory_run items :
  ∀ self w,
    create_all items (self, w)
    = (outcome_of_sum (fst (factory_run items (heap w))),
       (self, with_heap (snd (factory_run items (heap w))) w)).
Proof.
  induction items as [|c items IH]; intros self [h ls g t]; [done|].
  cbn. unfold call_create_recipient. munfold.
  destruct (create_recipient c "Enc_Recipient" h) as [[e|l] h1]; cbn; [done|].
  munfold. rewrite IH. cbn.
  destruct (factory_run items h1) as [[e|ls'] h2]; done.
Qed.

Lemma init_parsed fuel ph uh pl w :
  __init__ fuel (Some ph) (Some uh) pl [] None None w
  = (Ok (fst (parsed ph uh pl w)), snd (parsed ph uh pl w)).
Proof. by rewrite init_unfold. Qed.

Lemma parsed_list_at ph uh pl w l :
  list_at (snd (parsed ph uh pl w)) l = list_at w l.
Proof.
  unfold parsed. cbn [snd].
  change (with_lists _ (init_world w)) with (init_world (init_world w)).
  by rewrite !init_world_list_at.
Qed.

Lemma parsed_recipients_empty ph uh pl w :
  list_at (snd (parsed ph uh pl w)) (_recipients (fst (parsed ph uh pl w))) = [].
Proof.
  unfold parsed, list_at. cbn. by rewrite lookup_total_insert_eq.
Qed.

Lemma parsed_recipients_allocated ph uh pl w :
  _recipients (fst (parsed ph uh pl w)) ∈ dom (lists (snd (parsed ph uh pl w))).
Proof. unfold parsed. cbn. rewrite dom_insert_L. set_solver. Qed.

(** The [except] branch assigns a new empty list: nothing is appended. *)
Lemma decode_handler fuel self w :
  (l <- new_list [] ;; set_recipients fuel (Some l)) (self, w)
  = (Ok tt, (self, init_world w)).
Proof.
  munfold. fold (init_world w). apply setter_loop_stop.
  unfold init_world, list_at. cbn. by rewrite lookup_total_insert_eq.
Qed.

Lemma from_cose_obj_unfold fuel cose_obj w ph uh pl rest :
  EncCommon_from_cose_obj cose_obj = inr (ph, uh, pl, rest) →
  from_cose_obj fuel cose_obj w
  = match decode_recipients fuel rest (parsed ph uh pl w) with
    | (Ok _, (msg', w2)) => (Ok msg', w2)
    | (Raise e, (_, w2)) => (Raise e, w2)
    | (OutOfFuel, (_, w2)) => (OutOfFuel, w2)
    end.
Proof.
  intros Hbase. unfold from_cose_obj. rewrite Hbase, init_parsed.
  by destruct (parsed ph uh pl w).
Qed.

(** Decode when nothing is left of the array after the base parse. *)
Lemma from_cose_obj_nothing_left fuel cose_obj w ph uh pl :
  EncCommon_from_cose_obj cose_obj = inr (ph, uh, pl, []) →
  from_cose_obj fuel cose_obj w
  = (Ok (fst (parsed ph uh pl w)), init_world (snd (parsed ph uh pl w))).
Proof.
  intros Hbase. rewrite (from_cose_obj_unfold _ _ _ _ _ _ _ Hbase).
  unfold decode_recipients, try_except_Index_Value.
  destruct (parsed ph uh pl w) as [msg w1].
  change ((popped <- pop0 [] ;; _) (msg, w1))
    with (@Raise unit (IndexError "pop from empty list"), (msg, w1)).
  cbn [is_IndexError_or_ValueError]. by rewrite decode_handler.
Qed.

(** C6.  When nothing is left of the array after the base parse (the
    fourth element is absent), the pop fails, the failure is caught, and
    the message comes back with an empty recipient list and the parsed
    fields; no error is raised. *)
Theorem from_cose_obj_without_recipients fuel cose_obj w ph uh pl :
  EncCommon_from_cose_obj cose_obj = inr (ph, uh, pl, []) →
  ∃ msg w',
    from_cose_obj fuel cose_obj w = (Ok msg, w')
    ∧ list_at w' (_recipients msg) = []
    ∧ phdr msg = ph ∧ uhdr msg = uh ∧ payload msg = pl
    ∧ heap w' = heap w.
Proof.
  intros Hbase. rewrite (from_cose_obj_nothing_left _ _ _ _ _ _ Hbase).
  eexists _, _. split; [done|]. split; [|done].
  rewrite init_world_list_at. apply parsed_recipients_empty.
Qed.

(** C7 (amended).  An error the factory raises while a present recipient
    structure is reconstructed is propagated unless it is an [IndexError]
    or a [ValueError], or of a class derived from one of the two; those are
    caught like the failed pop, and the message comes back with an empty
    recipient list. *)
Theorem from_cose_obj_factory_error fuel cose_obj w ph uh pl items rest e h' :
  EncCommon_from_cose_obj cose_obj = inr (ph, uh, pl, CArray items :: rest) →
  factory_run items (heap w) = (inl e, h') →
  (is_IndexError_or_ValueError e = false →
   fst (from_cose_obj fuel cose_obj w) = Raise e)
  ∧ (is_IndexError_or_ValueError e = true →
     ∃ msg w',
       from_cose_obj fuel cose_obj w = (Ok msg, w')
       ∧ list_at w' (_recipients msg) = []).
Proof.
  intros Hbase Hrun. rewrite (from_cose_obj_unfold _ _ _ _ _ _ _ Hbase).
  unfold decode_recipients, try_except_Index_Value.
  destruct (parsed ph uh pl w) as [msg w1] eqn:Hp.
  assert (Hw1 : heap w1 = heap w).
  { unfold parsed in Hp. by injection Hp as <- <-. }
  assert (Hbody :
    (popped <- pop0 (CArray items :: rest) ;;
     items0 <- py_iter (fst popped) ;;
     rs <- create_all items0 ;;
     l <- new_list rs ;;
     set_recipients fuel (Some l)) (msg, w1)
    = (Raise e, (msg, with_heap h' w1))).
  { unfold bind at 1. cbn [pop0 ret fst]. unfold bind at 1. cbn [py_iter ret].
    unfold bind at 1. rewrite create_all_factory_run, Hw1, Hrun. done. }
  rewrite Hbody. split; intros He; rewrite He.
  - done.
  - rewrite decode_handler. eexists _, _. split; [done|].
    rewrite init_world_list_at.
    pose proof (parsed_recipients_empty ph uh pl w) as Hemp.
    rewrite Hp in Hemp. exact Hemp.
Qed.

End Decode.

Lemma from_cose_obj_without_recipients_witness :
  ∃ msg w',
    @from_cose_obj Reference.collaborators 0 Examples.wire3 Examples.world
    = (Ok msg, w')
    ∧ list_at w' (_recipients msg) = []
    ∧ payload msg = [x68; x69].
Proof.
  destruct (@from_cose_obj_without_recipients Reference.collaborators 0
              Examples.wire3 Examples.world [(1, 1)%Z] [] [x68; x69] eq_refl)
    as (msg & w' & Hrun & Hempty & _ & _ & Hpl & _).
  by exists msg, w'.
Defined.

Lemma from_cose_obj_factory_error_witness :
  fst (@from_cose_obj Reference.collaborators 1 Examples.wire_malformed
         Examples.world)
  = Raise (TypeError "object is not subscriptable")
  ∧ ∃ msg w',
      @from_cose_obj Reference.collaborators 1 Examples.wire_short
        Examples.world = (Ok msg, w')
      ∧ list_at w' (_recipients msg) = [].
Proof.
  split.
  - refine (proj1 (@from_cose_obj_factory_error Reference.collaborators 1
                     Examples.wire_malformed Examples.world
                     [(1, 1)%Z] [] [x68; x69] [CInt 0] [] _ _
                     eq_refl eq_refl) eq_refl).
  - refine (proj2 (@from_cose_obj_factory_error Reference.collaborators 1
                     Examples.wire_short Examples.world
                     [(1, 1)%Z] [] [x68; x69] [CArray []] [] _ _
                     eq_refl eq_refl) eq_refl).
Defined.

(** C7 as stated fails: the array has its fourth element, and the one
    recipient structure in it is an array without elements; the factory's
    read by position raises an [IndexError], and decode returns a message
    with no recipients instead of raising. *)
Lemma from_cose_obj_masks_factory_error :
  Examples.wire_short !! 3 = Some (CArray [CArray []])
  ∧ fst (Reference.create_recipient (CArray []) "Enc_Recipient"
           (heap Examples.world))
    = inl (IndexError "list index out of range")
  ∧ ∃ msg w',
      @from_cose_obj Reference.collaborators 1 Examples.wire_short
        Examples.world = (Ok msg, w')
      ∧ list_at w' (_recipients msg) = [].
Proof. split; [done|]. split; [done|]. vm_compute. eauto. Qed.

(** ** Encrypt and decrypt *)

Section Orchestration.
Context `{Collaborators}.

Lemma super_encrypt_run self w :
  super_encrypt (self, w)
  = (outcome_of_sum (EncCommon_encrypt self), (self, log (EvSeal (key self)) w)).
Proof.
  unfold super_encrypt. munfold. by destruct (EncCommon_encrypt self).
Qed.

Lemma super_decrypt_run self w :
  super_decrypt (self, w)
  = (outcome_of_sum (EncCommon_decrypt self), (self, log (EvOpen (key self)) w)).
Proof.
  unfold super_decrypt. munfold. by destruct (EncCommon_decrypt self).
Qed.

Lemma call_compute_cek_run r alg mode self w :
  call_compute_cek r alg mode (self, w)
  = (outcome_of_sum (fst (compute_cek r alg mode (heap w))),
     (self, log (EvComputeCek r alg mode)
              (with_heap (snd (compute_cek r alg mode (heap w))) w))).
Proof.
  unfold call_compute_cek. munfold.
  by destruct (compute_cek r alg mode (heap w)) as [[e|k] h'].
Qed.

Lemma call_recipient_encrypt_run r alg self w :
  call_recipient_encrypt r alg (self, w)
  = (outcome_of_sum (fst (recipient_encrypt r alg (heap w))),
     (self, log (EvRecipientEncrypt r alg (r_payload (heap w !!! r)))
              (with_heap (snd (recipient_encrypt r alg (heap w))) w))).
Proof.
  unfold call_recipient_encrypt. munfold.
  by destruct (recipient_encrypt r alg (heap w)) as [[e|k] h'].
Qed.

Lemma call_urandom_run n self w :
  call_urandom n (self, w)
  = (Ok (fst (os_urandom n (entropy w))),
     (self, log (EvUrandom n) (with_entropy (snd (os_urandom n (entropy w))) w))).
Proof.
  unfold call_urandom. munfold. by destruct (os_urandom n (entropy w)).
Qed.

Lemma self_recipients_run self w :
  self_recipients (self, w) = (Ok (list_at w (_recipients self)), (self, w)).
Proof. done. Qed.

Lemma set_key_then_seal cek self w :
  (set_key cek ;;; super_encrypt) (self, w)
  = (outcome_of_sum (EncCommon_encrypt (with_key (Some cek) self)),
     (with_key (Some cek) self, log (EvSeal (Some cek)) w)).
Proof.
  unfold bind at 1. unfold set_key. munfold. fold (with_key (Some cek) self).
  by destruct (EncCommon_encrypt (with_key (Some cek) self)).
Qed.

(** The branch [encrypt] takes, by the outcome of the classification. *)
Lemma encrypt_unfold self w :
  encrypt (self, w)
  = match verify_recipients (list_at w (_recipients self)) (heap w) with
    | inl e => (Raise e, (self, w))
    | inr r_types =>
        if bool_decide (DirectEncryption ∈ r_types) then
          super_encrypt (self, w)
        else if bool_decide (DirectKeyAgreement ∈ r_types) then
          (r0 <- index0 (list_at w (_recipients self)) ;;
           cek <- call_compute_cek r0 (get_attr_alg self) "encrypt" ;;
           set_key cek ;;;
           super_encrypt) (self, w)
        else if bool_decide (KeyWrap ∈ r_types)
                || bool_decide (KeyAgreementWithKeyWrap ∈ r_types) then
          (key_bytes <- call_urandom (get_key_length (get_attr_alg self)) ;;
           rs <- self_recipients ;;
           key_bytes <- key_wrap_loop (get_attr_alg self) rs key_bytes ;;
           set_key (SymmetricKey key_bytes (Some (get_attr_alg self)) [EncryptOp]) ;;;
           super_encrypt) (self, w)
        else (Raise Unsupported, (self, w))
    end.
Proof.
  unfold encrypt, call_verify_recipients. munfold.
  destruct (verify_recipients _ _) as [e|r_types]; cbn; [done|].
  repeat (case_bool_decide; cbn; try done).
Qed.

Lemma decrypt_unfold recipient self w :
  decrypt recipient (self, w)
  = if negb (has_recipient recipient (list_at w (_recipients self)) (heap w))
    then (Raise (CoseException
                   ("Cannot find recipient: " +:+ recipient_str recipient (heap w))),
          (self, w))
    else
      match verify_recipients (list_at w (_recipients self)) (heap w) with
      | inl e => (Raise e, (self, w))
      | inr r_types =>
          if bool_decide (DirectEncryption ∈ r_types) then
            super_decrypt (self, w)
          else if bool_decide (DirectKeyAgreement ∈ r_types)
                  || bool_decide (KeyWrap ∈ r_types)
                  || bool_decide (KeyAgreementWithKeyWrap ∈ r_types) then
            (cek <- call_compute_cek recipient (get_attr_alg self) "decrypt" ;;
             set_key cek ;;;
             super_decrypt) (self, w)
          else (Raise Unsupported, (self, w))
      end.
Proof.
  unfold decrypt, call_verify_recipients. munfold.
  destruct (has_recipient _ _ _); cbn; [|done].
  destruct (verify_recipients _ _) as [e|r_types]; cbn; [done|].
  repeat (case_bool_decide; cbn; try done).
Qed.

(** Key establishment through [compute_cek], then the AEAD step. *)
Lemma establish_then_seal r alg mode (aead : M bytes) self w :
  (cek <- call_compute_cek r alg mode ;; set_key cek ;;; aead) (self, w)
  = let w1 := log (EvComputeCek r alg mode)
                (with_heap (snd (compute_cek r alg mode (heap w))) w) in
    match fst (compute_cek r alg mode (heap w)) with
    | inl e => (Raise e, (self, w1))
    | inr cek => aead (with_key (Some cek) self, w1)
    end.
Proof.
  unfold bind at 1. rewrite call_compute_cek_run.
  by destruct (fst (compute_cek r alg mode (heap w))).
Qed.

(** The pass only calls [r.encrypt]: it leaves the envelope, the list
    objects and the entropy alone, and it returns or raises. *)
Lemma key_wrap_loop_frame alg rs :
  ∀ k self w,
    ∃ res h' evs,
      key_wrap_loop alg rs k (self, w)
      = (res, (self, mkWorld h' (lists w) (entropy w) (trace w ++ evs)))
      ∧ Forall is_wrap_event evs
      ∧ res ≠ OutOfFuel.
Proof.
  induction rs as [|r rs IH]; intros k self w.
  - exists (Ok k), (heap w), []. destruct w. cbn. by rewrite app_nil_r.
  - cbn [key_wrap_loop]. unfold bind at 1. cbn [get_world fst snd].
    set (step := match r_payload (heap w !!! r) with
                 | [] => _
                 | _ => _
                 end).
    assert (∃ k1 h1, step (self, w) = (Ok k1, (self, with_heap h1 w)))
      as (k1 & h1 & Hstep).
    { subst step. destruct (r_payload (heap w !!! r)).
      - eexists _, _. unfold set_payload. munfold. done.
      - eexists _, (heap w). destruct w. done. }
    unfold bind at 1. rewrite Hstep.
    unfold bind at 1. rewrite call_recipient_encrypt_run.
    destruct (fst (recipient_encrypt r alg (heap (with_heap h1 w)))) as [e|b];
      cbn [outcome_of_sum].
    + eexists (Raise e), _, [_]. split; [done|].
      split; [|done]. by repeat constructor.
    + destruct (IH k1 self
                  (log (EvRecipientEncrypt r alg
                          (r_payload (heap (with_heap h1 w) !!! r)))
                     (with_heap
                        (snd (recipient_encrypt r alg (heap (with_heap h1 w))))
                        (with_heap h1 w))))
        as (res & h' & evs & Hrun & Hevs & Hres).
      rewrite Hrun. eexists res, h', (_ :: evs). cbn.
      rewrite <- app_assoc. split; [done|]. split; [|done].
      by constructor.
Qed.

Lemma wrap_event_not_seal evs cek :
  Forall is_wrap_event evs → EvSeal cek ∉ evs.
Proof.
  intros Hevs Hin. rewrite Forall_forall in Hevs. by apply Hevs in Hin.
Qed.

(** The [if] / [else] of the loop body settles the key bytes and assigns
    them to a recipient with an empty carrier payload. *)
Lemma settle_step r k self w :
  (match r_payload (heap w !!! r) with
   | [] => set_payload r k ;;; ret k
   | p => ret p
   end) (self, w)
  = (Ok (settle_one k (r_payload (heap w !!! r))),
     (self, with_heap (take_current r k (heap w)) w)).
Proof.
  unfold take_current. destruct (r_payload (heap w !!! r)) as [|b p].
  - unfold set_payload. by munfold.
  - by destruct w.
Qed.

(** After the step the recipient holds the settled bytes. *)
Lemma take_current_at r k h :
  r_payload (take_current r k h !!! r) = settle_one k (r_payload (h !!! r)).
Proof.
  unfold take_current. destruct (r_payload (h !!! r)) as [|b p] eqn:Hp.
  - by rewrite lookup_total_insert_eq.
  - by rewrite Hp.
Qed.

Lemma take_current_other r k h r' :
  r' ≠ r → take_current r k h !!! r' = h !!! r'.
Proof.
  intros Hne. unfold take_current. destruct (r_payload (h !!! r)); [|done].
  by rewrite lookup_total_insert_ne.
Qed.

(** The loop of the key-wrap branch is the pass of the specification: same
    result, same recipient objects left, same calls in the same order; it
    touches neither the envelope nor a list object nor the entropy. *)
Lemma key_wrap_loop_wrap_pass alg rs :
  ∀ k self w,
    key_wrap_loop alg rs k (self, w)
    = match wrap_pass alg rs k (heap w) with
      | (res, h', calls) =>
          (outcome_of_sum res,
           (self, mkWorld h' (lists w) (entropy w) (trace w ++ calls)))
      end.
Proof.
  induction rs as [|r rs IH]; intros k self w.
  - destruct w. cbn. by rewrite app_nil_r.
  - cbn [key_wrap_loop wrap_pass]. unfold bind at 1. cbn [get_world fst snd].
    unfold bind at 1. rewrite settle_step.
    unfold bind at 1. rewrite call_recipient_encrypt_run.
    cbn [heap with_heap]. rewrite take_current_at.
    destruct (recipient_encrypt r alg (take_current r k (heap w)))
      as [[e|b] h2]; cbn [fst snd outcome_of_sum]; [done|].
    rewrite IH. cbn [heap lists entropy trace log with_heap].
    destruct (wrap_pass alg rs _ h2) as [[res h3] calls].
    by rewrite <- app_assoc.
Qed.

(** Direct encryption: whenever the classification names
    [DirectEncryption], whatever else it names, [encrypt] derives no key
    and runs the AEAD step with the key the envelope already holds. *)
Lemma encrypt_direct_encryption self w r_types :
  verify_recipients (list_at w (_recipients self)) (heap w) = inr r_types →
  DirectEncryption ∈ r_types →
  encrypt (self, w)
  = (outcome_of_sum (EncCommon_encrypt self), (self, log (EvSeal (key self)) w)).
Proof.
  intros Hv Hde. rewrite encrypt_unfold, Hv.
  rewrite bool_decide_eq_true_2 by done. apply super_encrypt_run.
Qed.

(** X17.  Key establishment in [decrypt]: for the three variants that
    derive a key, the chosen recipient's [compute_cek] is called with mode
    ["decrypt"], its result is stored as the key, and the AEAD step opens
    the payload with it; an error of [compute_cek] is raised before the
    AEAD step and leaves the key as it was. *)
Lemma decrypt_establishes_key recipient self w r_types :
  has_recipient recipient (list_at w (_recipients self)) (heap w) = true →
  verify_recipients (list_at w (_recipients self)) (heap w) = inr r_types →
  DirectEncryption ∉ r_types →
  DirectKeyAgreement ∈ r_types ∨ KeyWrap ∈ r_types
  ∨ KeyAgreementWithKeyWrap ∈ r_types →
  decrypt recipient (self, w)
  = let alg := get_attr_alg self in
    let w1 := log (EvComputeCek recipient alg "decrypt")
                (with_heap (snd (compute_cek recipient alg "decrypt" (heap w))) w) in
    match fst (compute_cek recipient alg "decrypt" (heap w)) with
    | inl e => (Raise e, (self, w1))
    | inr cek =>
        (outcome_of_sum (EncCommon_decrypt (with_key (Some cek) self)),
         (with_key (Some cek) self, log (EvOpen (Some cek)) w1))
    end.
Proof.
  intros Hhas Hv Hde Hvariant. rewrite decrypt_unfold, Hhas, Hv. cbn [negb].
  rewrite (bool_decide_eq_false_2 _ Hde).
  assert (Hor : bool_decide (DirectKeyAgreement ∈ r_types)
                || bool_decide (KeyWrap ∈ r_types)
                || bool_decide (KeyAgreementWithKeyWrap ∈ r_types) = true).
  { destruct Hvariant as [Hk|[Hk|Hk]]; rewrite (bool_decide_eq_true_2 _ Hk);
      by rewrite ?orb_true_r. }
  rewrite Hor, establish_then_seal. cbn zeta.
  destruct (fst (compute_cek _ _ _ _)); [done|].
  by rewrite super_decrypt_run.
Qed.

(** C9.  When the recipient set classifies as direct key agreement,
    [encrypt] calls [compute_cek] of the first recipient with the target
    algorithm and mode ["encrypt"], stores the result as the envelope's key
    and runs the AEAD step with it; no other recipient is called. *)
Theorem encrypt_direct_key_agreement self w r0 rest :
  list_at w (_recipients self) = r0 :: rest →
  classifies self w as_direct_key_agreement →
  encrypt (self, w)
  = let alg := get_attr_alg self in
    let w1 := log (EvComputeCek r0 alg "encrypt")
                (with_heap (snd (compute_cek r0 alg "encrypt" (heap w))) w) in
    match fst (compute_cek r0 alg "encrypt" (heap w)) with
    | inl e => (Raise e, (self, w1))
    | inr cek =>
        (outcome_of_sum (EncCommon_encrypt (with_key (Some cek) self)),
         (with_key (Some cek) self, log (EvSeal (Some cek)) w1))
    end.
Proof.
  intros Hrs (r_types & Hv & Hde & Hdka).
  rewrite encrypt_unfold, Hv.
  rewrite bool_decide_eq_false_2, bool_decide_eq_true_2 by done.
  rewrite Hrs. unfold bind at 1. cbn [index0 ret].
  rewrite establish_then_seal. cbn zeta.
  destruct (fst (compute_cek _ _ _ _)); [done|].
  by rewrite super_encrypt_run.
Qed.


(** C4.  With a lookup that finds only members of the list, [decrypt]
    with a recipient that is not in the envelope's recipient list fails with
    the recipient-not-found error; the envelope (its key included) and the
    world are as before, so no key derivation and no AEAD step has run. *)
Theorem decrypt_foreign_recipient self w r :
  lookup_by_identity →
  r ∉ list_at w (_recipients self) →
  decrypt r (self, w)
  = (Raise (CoseException
              ("Cannot find recipient: " +:+ recipient_str r (heap w))),
     (self, w)).
Proof.
  intros Hlookup Hr. rewrite decrypt_unfold.
  destruct (has_recipient r _ _) eqn:Hhas; [|done].
  by apply Hlookup in Hhas.
Qed.

(** The key in force when the pass ends is the last of the keys in force
    after the visits (the generated key when there is no recipient). *)
Lemma settled_key_last k cs :
  settled_key k cs = default k (last (settled_keys k cs)).
Proof.
  revert k. induction cs as [|c cs IH]; intros k; [done|].
  cbn. unfold settled_key in IH. rewrite IH.
  destruct (settled_keys (settle_one k c) cs) as [|k' ks] eqn:Hks; [done|].
  rewrite last_cons_cons.
  destruct (last (k' :: ks)) eqn:Hlast; [done|].
  by apply last_None in Hlast.
Qed.

(** C1.  When the recipient set classifies as key wrap (or key agreement
    with key wrap), [encrypt] asks [os.urandom] once, for as many bytes as
    the key length of the algorithm, and then makes the pass of the
    specification over the recipients in list order, starting from the
    generated bytes: a recipient with an empty carrier payload is assigned
    the current key bytes, a carrier payload that is not empty replaces the
    current key bytes from there on, and each recipient's [encrypt] is
    called on the settled bytes.  When the pass completes, the bytes in
    force at its end become the key of the envelope, for the algorithm and
    the encrypt operation, and the AEAD step runs with that key, after the
    last recipient's [encrypt]; when a recipient's [encrypt] raises, the
    pass stops there and [encrypt] raises that error, with no key stored
    and no AEAD step.  This holds for every envelope, every recipient list
    (repeated recipients included) and every implementation of the
    recipients. *)
Theorem encrypt_key_wrap self w :
  classifies self w as_key_wrap →
  let alg := get_attr_alg self in
  let rs := list_at w (_recipients self) in
  let n := get_key_length alg in
  let k0 := fst (os_urandom n (entropy w)) in
  let g' := snd (os_urandom n (entropy w)) in
  encrypt (self, w)
  = match wrap_pass alg rs k0 (heap w) with
    | (inr kb, h', calls) =>
        let cek := SymmetricKey kb (Some alg) [EncryptOp] in
        (outcome_of_sum (EncCommon_encrypt (with_key (Some cek) self)),
         (with_key (Some cek) self,
          mkWorld h' (lists w) g'
            (trace w ++ EvUrandom n :: calls ++ [EvSeal (Some cek)])))
    | (inl e, h', calls) =>
        (Raise e,
         (self, mkWorld h' (lists w) g' (trace w ++ EvUrandom n :: calls)))
    end.
Proof.
  intros (r_types & Hv & Hde & Hdka & Hkw) alg rs n k0 g'.
  rewrite encrypt_unfold, Hv.
  rewrite (bool_decide_eq_false_2 _ Hde), (bool_decide_eq_false_2 _ Hdka).
  assert (Hor : bool_decide (KeyWrap ∈ r_types)
                || bool_decide (KeyAgreementWithKeyWrap ∈ r_types) = true).
  { destruct Hkw as [Hk|Hk]; rewrite (bool_decide_eq_true_2 _ Hk);
      [done|by rewrite orb_true_r]. }
  rewrite Hor.
  unfold bind at 1. rewrite call_urandom_run. fold alg n k0 g'.
  unfold bind at 1. rewrite self_recipients_run.
  change (list_at (log _ (with_entropy g' w)) (_recipients self)) with rs.
  unfold bind at 1. rewrite key_wrap_loop_wrap_pass.
  cbn [heap lists entropy trace log with_entropy].
  destruct (wrap_pass alg rs k0 (heap w)) as [[[e|kb] h'] calls];
    cbn [outcome_of_sum].
  - by rewrite <- app_assoc.
  - rewrite set_key_then_seal. unfold log. cbn [heap lists entropy trace].
    by rewrite <- !app_assoc.
Qed.

Lemma key_kept_unchanged aead self w : key_kept aead self w (self, w).
Proof.
  split; [done|]. exists []. split; [by rewrite app_nil_r|].
  intros cek Hin. by apply elem_of_nil in Hin.
Qed.

(** C5 (amended).  [encrypt] and [decrypt] never erase the key: an
    envelope that holds a key before the call holds one after it, on every
    exit path; and when the call has reached the AEAD step, the key that
    step ran with is the key the envelope holds after the call, whether the
    step has succeeded or failed. *)
Theorem key_is_not_erased self w recipient :
  key_kept EvSeal self w (snd (encrypt (self, w)))
  ∧ key_kept EvOpen self w (snd (decrypt recipient (self, w))).
Proof.
  split.
  - rewrite encrypt_unfold.
    destruct (verify_recipients _ _) as [e|r_types];
      [apply key_kept_unchanged|].
    case_bool_decide.
    { rewrite super_encrypt_run. split; [done|].
      exists [EvSeal (key self)]. split; [done|]. cbn. solve_events. }
    case_bool_decide.
    { destruct (list_at w (_recipients self)) as [|r0 rest].
      { apply key_kept_unchanged. }
      unfold bind at 1. cbn [index0 ret].
      rewrite establish_then_seal. cbn zeta.
      destruct (fst (compute_cek _ _ _ _)) as [e|cek0].
      - split; [done|]. eexists [_]. split; [done|]. cbn. solve_events.
      - rewrite super_encrypt_run. split; [by eauto|].
        eexists [_; _]. split; [cbn; by rewrite <- app_assoc|]. cbn. solve_events. }
    destruct (_ || _); [|apply key_kept_unchanged].
    unfold bind at 1. rewrite call_urandom_run.
    unfold bind at 1. rewrite self_recipients_run.
    set (w1 := log _ _). set (rs := list_at w1 _).
    destruct (key_wrap_loop_frame (get_attr_alg self) rs
                (os_urandom (get_key_length (get_attr_alg self)) (entropy w)).1
                self w1) as (res & h' & evs & Hrun & Hevs & Hres).
    unfold bind at 1. rewrite Hrun.
    assert (Hno : ∀ cek, EvSeal cek ∉ evs)
      by (intros cek; by apply wrap_event_not_seal).
    destruct res as [kb|e|]; [| |done].
    + rewrite set_key_then_seal. split; [by eauto|].
      exists (EvUrandom (get_key_length (get_attr_alg self))
                :: evs ++ [EvSeal (Some (SymmetricKey kb
                                            (Some (get_attr_alg self))
                                            [EncryptOp]))]).
      split; [cbn; by rewrite <- !app_assoc|].
      intros cek Hin. cbn.
      rewrite elem_of_cons, elem_of_app, list_elem_of_singleton in Hin.
      specialize (Hno cek). naive_solver.
    + split; [done|].
      exists (EvUrandom (get_key_length (get_attr_alg self)) :: evs).
      split; [cbn; by rewrite <- !app_assoc|].
      intros cek Hin. rewrite elem_of_cons in Hin.
      specialize (Hno cek). naive_solver.
  - rewrite decrypt_unfold.
    destruct (negb _); [apply key_kept_unchanged|].
    destruct (verify_recipients _ _) as [e|r_types];
      [apply key_kept_unchanged|].
    case_bool_decide.
    { rewrite super_decrypt_run. split; [done|].
      exists [EvOpen (key self)]. split; [done|]. cbn. solve_events. }
    destruct (_ || _); [|apply key_kept_unchanged].
    rewrite establish_then_seal. cbn zeta.
    destruct (fst (compute_cek _ _ _ _)) as [e|cek0].
    + split; [done|]. eexists [_]. split; [done|]. cbn. solve_events.
    + rewrite super_decrypt_run. split; [by eauto|].
      eexists [_; _]. split; [cbn; by rewrite <- app_assoc|]. cbn. solve_events.
Qed.

End Orchestration.

(** ** Encode, and decode of what encode produced *)

Section Encode.
Context `{Collaborators}.

Lemma encode_all_run rs :
  ∀ self w,
    encode_all rs (self, w)
    = (outcome_of_sum (fst (encode_run (get_attr_alg self) rs (heap w))),
       (self, with_heap (snd (encode_run (get_attr_alg self) rs (heap w))) w)).
Proof.
  induction rs as [|r rs IH]; intros self [h ls g t]; [done|].
  cbn. unfold call_recipient_encode. munfold.
  destruct (recipient_encode r (get_attr_alg self) h) as [[e|c] h1]; cbn; [done|].
  munfold. rewrite IH. cbn.
  destruct (encode_run (get_attr_alg self) rs h1) as [[e|cs] h2]; done.
Qed.

Lemma encode_run_length alg rs :
  ∀ h encs h', encode_run alg rs h = (inr encs, h') → length encs = length rs.
Proof.
  induction rs as [|r rs IH]; intros h encs h' Hrun; cbn in Hrun.
  - by injection Hrun as <- <-.
  - destruct (recipient_encode r alg h) as [[e|c] h1]; [done|].
    destruct (encode_run alg rs h1) as [[e|cs] h2] eqn:Hrest; [done|].
    injection Hrun as <- <-. cbn. f_equal. by eapply IH.
Qed.

Lemma factory_run_length items :
  ∀ h ls h', factory_run items h = (inr ls, h') → length ls = length items.
Proof.
  induction items as [|c items IH]; intros h ls h' Hrun; cbn in Hrun.
  - by injection Hrun as <- <-.
  - destruct (create_recipient c "Enc_Recipient" h) as [[e|l] h1]; [done|].
    destruct (factory_run items h1) as [[e|ls'] h2] eqn:Hrest; [done|].
    injection Hrun as <- <-. cbn. f_equal. by eapply IH.
Qed.

(** [encrypt] changes nothing of the envelope but its key, and no list
    object. *)
Lemma encrypt_frame self w :
  ∃ res k' w',
    encrypt (self, w) = (res, (with_key k' self, w'))
    ∧ lists w' = lists w
    ∧ res ≠ OutOfFuel.
Proof.
  assert (Hself : self = with_key (key self) self) by (by destruct self).
  assert (Hsame : ∀ e, ∃ res k' w',
            (@Raise bytes e, (self, w)) = (res, (with_key k' self, w'))
            ∧ lists w' = lists w ∧ res ≠ OutOfFuel).
  { intros e. exists (Raise e), (key self), w. by rewrite <- Hself. }
  rewrite encrypt_unfold.
  destruct (verify_recipients _ _) as [e|r_types]; [apply Hsame|].
  case_bool_decide.
  { rewrite super_encrypt_run. eexists _, (key self), _.
    rewrite <- Hself. split; [done|]. split; [done|].
    by destruct (EncCommon_encrypt self). }
  case_bool_decide.
  { destruct (list_at w (_recipients self)) as [|r0 rest]; [apply Hsame|].
    unfold bind at 1. cbn [index0 ret].
    rewrite establish_then_seal. cbn zeta.
    destruct (fst (compute_cek _ _ _ _)) as [e|cek0].
    - eexists (Raise e), (key self), _. by rewrite <- Hself.
    - rewrite super_encrypt_run. eexists _, (Some cek0), _.
      split; [done|]. split; [done|].
      by destruct (EncCommon_encrypt _). }
  destruct (_ || _); [|apply Hsame].
  unfold bind at 1. rewrite call_urandom_run.
  unfold bind at 1. rewrite self_recipients_run.
  set (w1 := log _ _). set (rs := list_at w1 _).
  destruct (key_wrap_loop_frame (get_attr_alg self) rs
              (os_urandom (get_key_length (get_attr_alg self)) (entropy w)).1
              self w1) as (res & h' & evs & Hrun & Hevs & Hres).
  unfold bind at 1. rewrite Hrun.
  destruct res as [kb|e|]; [| |done].
  - rewrite set_key_then_seal. eexists _, (Some _), _.
    split; [done|]. split; [done|]. by destruct (EncCommon_encrypt _).
  - eexists (Raise e), (key self), _. by rewrite <- Hself.
Qed.

(** The array [encode] assembles: the two encoded headers, the payload
    (raw mode) or what [encrypt] returns, and, when there are recipients,
    the list of their encodings under the envelope's algorithm. *)
Lemma encode_message_run flag self w :
  encode_message flag (self, w)
  = match (if flag then encrypt (self, w) else (Ok (payload self), (self, w))) with
    | (Ok body, (self1, w1)) =>
        let front := [phdr_encoded (phdr self); uhdr_encoded (uhdr self);
                      CBytes body] in
        match list_at w (_recipients self) with
        | [] => (Ok front, (self1, w1))
        | rs =>
            match encode_run (get_attr_alg self) rs (heap w1) with
            | (inr encs, h') => (Ok (front ++ [CArray encs]), (self1, with_heap h' w1))
            | (inl e, h') => (Raise e, (self1, with_heap h' w1))
            end
        end
    | (Raise e, c) => (Raise e, c)
    | (OutOfFuel, c) => (OutOfFuel, c)
    end.
Proof.
  unfold encode_message. unfold bind at 1. cbn [get_self fst].
  unfold bind at 1.
  assert (Hbody : ∃ res k' w1,
            (if flag then encrypt else self0 <- get_self ;; ret (payload self0))
              (self, w) = (res, (with_key k' self, w1))
            ∧ (if flag then encrypt (self, w) else (Ok (payload self), (self, w)))
              = (res, (with_key k' self, w1))
            ∧ lists w1 = lists w).
  { destruct flag.
    - destruct (encrypt_frame self w) as (res & k' & w1 & Hrun & Hl & _).
      exists res, k', w1. by rewrite Hrun.
    - exists (Ok (payload self)), (key self), w. by destruct self. }
  destruct Hbody as (res & k' & w1 & -> & -> & Hl).
  destruct res as [body|e|]; [|done|done].
  unfold bind at 1. rewrite self_recipients_run.
  assert (Hrs : list_at w1 (_recipients (with_key k' self))
                = list_at w (_recipients self)).
  { unfold list_at. by rewrite Hl. }
  rewrite Hrs.
  destruct (list_at w (_recipients self)) as [|r rs] eqn:Hlist; [done|].
  rewrite bool_decide_eq_true_2 by done.
  unfold bind at 1. rewrite self_recipients_run, Hrs.
  unfold bind at 1. rewrite encode_all_run.
  change (get_attr_alg (with_key k' self)) with (get_attr_alg self).
  by destruct (encode_run (get_attr_alg self) (r :: rs) (heap w1)) as [[e|encs] h'].
Qed.

(** Decode of an array whose fourth element is present, when the factory
    rebuilds every recipient: the recipients come back in order. *)
Lemma from_cose_obj_with_recipients fuel cose_obj w ph uh pl items rest ls h' :
  EncCommon_from_cose_obj cose_obj = inr (ph, uh, pl, CArray items :: rest) →
  factory_run items (heap w) = (inr ls, h') →
  Forall (fun l => issubclass_CoseRecipient (ob_type (h' !!! l)) = true) ls →
  length ls ≤ fuel →
  ∃ msg w',
    from_cose_obj fuel cose_obj w = (Ok msg, w')
    ∧ list_at w' (_recipients msg) = ls
    ∧ heap w' = h'.
Proof.
  intros Hbase Hrun Hvalid Hfuel.
  rewrite (from_cose_obj_unfold _ _ _ _ _ _ _ Hbase).
  unfold decode_recipients, try_except_Index_Value.
  pose proof (parsed_recipients_empty ph uh pl w) as Hemp.
  pose proof (parsed_recipients_allocated ph uh pl w) as Halloc.
  destruct (parsed ph uh pl w) as [msg w1] eqn:Hp.
  cbn [fst snd] in Hemp, Halloc.
  assert (Hw1 : heap w1 = heap w).
  { unfold parsed in Hp. by injection Hp as <- <-. }
  unfold bind at 1. cbn [pop0 ret fst]. unfold bind at 1. cbn [py_iter ret].
  unfold bind at 1. rewrite create_all_factory_run, Hw1, Hrun.
  cbn [fst snd outcome_of_sum].
  unfold bind at 1. unfold new_list. munfold.
  set (l := fresh (dom (lists w1))).
  set (w4 := with_lists (<[l := ls]> (lists w1)) (with_heap h' w1)).
  assert (Hl : l ≠ _recipients msg).
  { intros Heq. apply (is_fresh (dom (lists w1))). fold l. by rewrite Heq. }
  assert (Hsrc : list_at w4 l = ls).
  { unfold list_at, w4. cbn. by rewrite lookup_total_insert_eq. }
  assert (Hdst : list_at w4 (_recipients msg) = []).
  { unfold list_at, w4. cbn. rewrite lookup_total_insert_ne by done.
    exact Hemp. }
  change (setter_loop fuel l 0 (msg, w4))
    with (set_recipients fuel (Some l) (msg, w4)).
  rewrite set_recipients_appends; rewrite ?Hsrc; try done.
  exists msg, (appended msg ls w4). split; [done|]. split.
  - by rewrite list_at_appended_stored, Hdst.
  - by rewrite heap_appended.
Qed.

(** C8 (amended).  In raw mode an envelope without recipients encodes to
    the three-element array, and one with recipients to the four-element
    array as soon as the recipients' own encodings succeed.  Whenever
    [encode] assembles an array, in raw mode or after [encrypt] has
    returned, it has three elements when the envelope has no recipients and
    four when it has some, the fourth being the encodings of the
    recipients, in order, under the envelope's algorithm.  Decoding that array, with a base parse that takes the first
    three elements and a factory that rebuilds each recipient, gives a
    message with as many recipients as the envelope has. *)
Theorem encode_then_decode_recipients self w :
  let rs := list_at w (_recipients self) in
  let ph := phdr_encoded (phdr self) in
  let uh := uhdr_encoded (uhdr self) in
  (rs = [] →
   encode_message false (self, w)
   = (Ok [ph; uh; CBytes (payload self)], (self, w)))
  ∧ (rs ≠ [] →
     encode_message false (self, w)
     = match encode_run (get_attr_alg self) rs (heap w) with
       | (inr encs, h') =>
           (Ok [ph; uh; CBytes (payload self); CArray encs],
            (self, with_heap h' w))
       | (inl e, h') => (Raise e, (self, with_heap h' w))
       end)
  ∧ ∀ flag message c' fuel wd ph' uh' pl',
      encode_message flag (self, w) = (Ok message, c') →
      EncCommon_from_cose_obj message = inr (ph', uh', pl', drop 3 message) →
      (∀ encs, message !! 3 = Some (CArray encs) →
               ∃ ls h', factory_run encs (heap wd) = (inr ls, h')
                        ∧ Forall (fun l => issubclass_CoseRecipient
                                             (ob_type (h' !!! l)) = true) ls) →
      length rs ≤ fuel →
      (∃ body,
         match rs with
         | [] => message = [ph; uh; CBytes body]
         | _ => ∃ encs h1 h2,
                  message = [ph; uh; CBytes body; CArray encs]
                  ∧ encode_run (get_attr_alg self) rs h1 = (inr encs, h2)
         end)
      ∧ length message = (if decide (length rs = 0) then 3 else 4)
      ∧ ∃ msg w',
          from_cose_obj fuel message wd = (Ok msg, w')
          ∧ length (list_at w' (_recipients msg)) = length rs.
Proof.
  intros rs ph uh. split; [|split].
  - intros Hrs. rewrite encode_message_run. fold rs. by rewrite Hrs.
  - intros Hrs. rewrite encode_message_run. fold rs.
    destruct rs as [|r rs']; [done|]. cbn zeta.
    by destruct (encode_run (get_attr_alg self) (r :: rs') (heap w))
      as [[e|encs] h'].
  - intros flag message c' fuel wd ph' uh' pl' Henc Hbase Hfactory Hfuel.
    rewrite encode_message_run in Henc. fold rs ph uh in Henc.
    destruct (if flag then encrypt (self, w) else _)
      as [[body|e|] [self1 w1]]; [|done|done].
    cbn zeta in Henc.
    destruct rs as [|r rs'] eqn:Hrs.
    + injection Henc as <- <-. split; [by exists body|]. split; [done|].
      rewrite (from_cose_obj_nothing_left fuel _ wd _ _ _ Hbase).
      eexists _, _. split; [done|].
      by rewrite init_world_list_at, parsed_recipients_empty.
    + destruct (encode_run (get_attr_alg self) (r :: rs') (heap w1))
        as [[e|encs] h2] eqn:Hencs; [done|].
      injection Henc as <- <-.
      split; [exists body; by eauto|]. split; [done|].
      destruct (Hfactory encs eq_refl) as (ls & h' & Hrun & Hvalid).
      assert (Hlen : length ls = length (r :: rs')).
      { rewrite (factory_run_length _ _ _ _ Hrun).
        by apply (encode_run_length _ _ _ _ _ Hencs). }
      destruct (from_cose_obj_with_recipients fuel _ wd _ _ _ encs [] ls h'
                  Hbase Hrun Hvalid) as (msg & w' & Hdec & Hlist & _).
      { by rewrite Hlen. }
      exists msg, w'. by rewrite Hlist.
Qed.

(** In encrypt mode an envelope without recipients does not encode when
    the classification of the empty set raises or names none of the four
    variants: [encrypt] fails before an array is assembled. *)
Lemma encode_message_no_recipients_encrypt self w :
  list_at w (_recipients self) = [] →
  match verify_recipients [] (heap w) with
  | inl _ => True
  | inr r_types =>
      (DirectEncryption ∉ r_types) ∧ (DirectKeyAgreement ∉ r_types)
      ∧ (KeyWrap ∉ r_types) ∧ (KeyAgreementWithKeyWrap ∉ r_types)
  end →
  ∃ e, encode_message true (self, w) = (Raise e, (self, w)).
Proof.
  intros Hrs Hcls. rewrite encode_message_run, encrypt_unfold, Hrs.
  destruct (verify_recipients [] (heap w)) as [e|r_types]; [by eauto|].
  destruct Hcls as (Hde & Hdka & Hkw & Hkakw).
  rewrite !bool_decide_eq_false_2 by done. by eauto.
Qed.

End Encode.

(** ** The reference collaborators meet the contracts *)

Lemma reference_lookup_by_identity : @lookup_by_identity Reference.collaborators.
Proof. intros r rs h Hhas. by apply bool_decide_eq_true in Hhas. Qed.

(** ** The theorems at the example worlds *)

Lemma encrypt_key_wrap_witness :
  let k0 := fst (Reference.os_urandom 16 7) in
  let cek := SymmetricKey k0 (Some Reference.A128GCM) [EncryptOp] in
  @encrypt Reference.collaborators (Examples.envelope None 20, Cases.repeated)
  = (Ok ([x68; x69] ++ k0),
     (Examples.envelope (Some cek) 20,
      mkWorld (<[1 := mkObject KeyWrap k0 [x11]]> Cases.objects)
        (lists Cases.repeated) 23
        [EvUrandom 16;
         EvRecipientEncrypt 1 Reference.A128GCM k0;
         EvRecipientEncrypt 2 Reference.A128GCM [xaa; xbb];
         EvRecipientEncrypt 1 Reference.A128GCM k0;
         EvSeal (Some cek)])).
Proof.
  intros k0 cek. etransitivity.
  - apply (@encrypt_key_wrap Reference.collaborators
             (Examples.envelope None 20) Cases.repeated).
    exists [KeyWrap]. split; [reflexivity|]. unfold as_key_wrap. by_decision.
  - vm_compute. reflexivity.
Defined.



Lemma decrypt_foreign_recipient_witness :
  @decrypt Reference.collaborators 5
    (Examples.envelope None 11, Examples.world)
  = (Raise (CoseException "Cannot find recipient: <COSE_Recipient>"),
     (Examples.envelope None 11, Examples.world)).
Proof.
  apply (@decrypt_foreign_recipient Reference.collaborators
           (Examples.envelope None 11) Examples.world 5).
  - exact reference_lookup_by_identity.
  - by_decision.
Defined.

Lemma encrypt_direct_key_agreement_witness :
  @encrypt Reference.collaborators (Examples.envelope None 13, Examples.world)
  = (Ok [x68; x69; x55; x56],
     (Examples.envelope
        (Some (SymmetricKey [x55; x56] (Some Reference.A128GCM) [EncryptOp]))
        13,
      mkWorld Examples.objects Examples.list_objects 7
        [EvComputeCek 5 Reference.A128GCM "encrypt";
         EvSeal (Some (SymmetricKey [x55; x56] (Some Reference.A128GCM)
                         [EncryptOp]))])).
Proof.
  apply (@encrypt_direct_key_agreement Reference.collaborators
           (Examples.envelope None 13) Examples.world 5 [7]).
  - reflexivity.
  - exists [DirectKeyAgreement]. split; [reflexivity|].
    unfold as_direct_key_agreement. by_decision.
Defined.

(** C5 as stated fails: the key is still stored on the envelope after the
    call when [encrypt] succeeds (direct encryption, pre-set key), when
    the classification fails (no recipients), and when the AEAD step fails
    ([decrypt] through a key-wrap recipient whose key does not open the
    payload). *)
Lemma key_survives_every_exit :
  let success :=
    @encrypt Reference.collaborators
      (Examples.envelope (Some Examples.preset_key) 12, Examples.world) in
  let rejected :=
    @encrypt Reference.collaborators
      (Examples.envelope (Some Examples.preset_key) 10, Examples.world) in
  let aead_failure :=
    @decrypt Reference.collaborators 2
      (Examples.envelope None 11, Examples.world) in
  (fst success = Ok ([x68; x69] ++ Examples.K16)
   ∧ key (fst (snd success)) = Some Examples.preset_key)
  ∧ (fst rejected = Raise Unsupported
     ∧ key (fst (snd rejected)) = Some Examples.preset_key)
  ∧ (fst aead_failure = Raise (CoseException "authentication failure")
     ∧ key (fst (snd aead_failure))
       = Some (SymmetricKey [xaa; xbb] (Some Reference.A128GCM) [DecryptOp])).
Proof. vm_compute. done. Qed.

(** C8 as stated fails: with the default [encrypt=True], encoding an
    envelope without recipients raises, although a key is set; no array, of
    three elements or otherwise, is produced. *)
Lemma encode_no_recipients_raises :
  list_at Examples.world 10 = []
  ∧ fst (@encode_message Reference.collaborators true
           (Examples.envelope (Some Examples.preset_key) 10, Examples.world))
    = Raise Unsupported
  ∧ fst (@encode Reference.collaborators true true
           (Examples.envelope (Some Examples.preset_key) 10, Examples.world))
    = Raise Unsupported.
Proof. vm_compute. done. Qed.

Lemma encode_then_decode_recipients_witness :
  @encode_message Reference.collaborators false
    (Examples.envelope None 10, Examples.world)
  = (Ok Examples.wire3, (Examples.envelope None 10, Examples.world))
  ∧ ∃ message msg w',
      fst (@encode_message Reference.collaborators false
             (Examples.envelope None 11, Examples.world)) = Ok message
      ∧ length message = 4
      ∧ @from_cose_obj Reference.collaborators 3 message Examples.world
        = (Ok msg, w')
      ∧ length (list_at w' (_recipients msg)) = 3.
Proof.
  split.
  - apply (proj1 (@encode_then_decode_recipients Reference.collaborators
                    (Examples.envelope None 10) Examples.world)).
    reflexivity.
  - pose proof (proj2 (proj2 (@encode_then_decode_recipients
                                Reference.collaborators
                                (Examples.envelope None 11) Examples.world))
                  false _ _ 3 Examples.world [(1, 1)%Z] [] [x68; x69]
                  eq_refl eq_refl) as Hthm.
    destruct Hthm as (_ & Hlen & msg & w' & Hdec & Hn).
    + intros encs Henc. injection Henc as <-.
      eexists _, _. split; [reflexivity|]. by_decision.
    + by_decision.
    + eexists _, msg, w'. split; [reflexivity|].
      split; [exact Hlen|]. split; [exact Hdec|exact Hn].
Defined.

(** * Further properties of the class *)

(** ** The setter, on every exit path *)

(** Whatever list is assigned and however the loop ends, all it has done
    is append recipients to the stored list. *)
Lemma setter_loop_only_appends fuel :
  ∀ src i self w,
    ∃ res items,
      setter_loop fuel src i (self, w) = (res, (self, appended self items w))
      ∧ Forall (valid_recipient w) items.
Proof.
  induction fuel as [|fuel IH]; intros src i self w.
  - destruct (list_at w src !! i) as [r|] eqn:Hi.
    + exists OutOfFuel, []. split; [|done]. cbn. munfold. by rewrite Hi.
    + exists (Ok tt), []. split; [|done]. by apply setter_loop_stop.
  - destruct (list_at w src !! i) as [r|] eqn:Hi.
    + destruct (decide (valid_recipient w r)) as [Hv|Hv].
      * rewrite (setter_loop_step _ _ _ _ _ _ Hi Hv).
        destruct (IH src (S i) self (appended self [r] w))
          as (res & items & Hrun & Hitems).
        exists res, (r :: items). rewrite Hrun, appended_app. split; [done|].
        constructor; [done|].
        eapply Forall_impl; [exact Hitems|]. intros x.
        by apply valid_recipient_appended.
      * exists (Raise not_a_recipient), []. split; [|done].
        by apply setter_loop_reject with (r := r).
    + exists (Ok tt), []. split; [|done]. by apply setter_loop_stop.
Qed.

Lemma appended_lists_other self items w l :
  l ≠ _recipients self → lists (appended self items w) !! l = lists w !! l.
Proof.
  intros Hne. destruct items as [|x items]; [done|].
  cbn. by rewrite lookup_insert_ne.
Qed.

(** X1.  Whatever is assigned through the setter ([None], a list of
    its own, the stored list itself), and however the assignment ends
    (return, type error, cut off), the recipient objects, the call trace and
    the entropy are untouched, no list object other than the stored one
    changes, and a stored list that held only recipients holds only
    recipients afterwards. *)
Theorem set_recipients_keeps_recipients_valid fuel arg self w :
  ∃ res self' w',
    set_recipients fuel arg (self, w) = (res, (self', w'))
    ∧ heap w' = heap w ∧ trace w' = trace w ∧ entropy w' = entropy w
    ∧ (∀ l, l ∈ dom (lists w) → l ≠ _recipients self →
            lists w' !! l = lists w !! l)
    ∧ (Forall (valid_recipient w) (list_at w (_recipients self)) →
       Forall (valid_recipient w') (list_at w' (_recipients self'))).
Proof.
  destruct arg as [src|].
  - destruct (setter_loop_only_appends fuel src 0 self w)
      as (res & items & Hrun & Hitems).
    exists res, self, (appended self items w).
    split; [exact Hrun|]. rewrite heap_appended, trace_appended, entropy_appended.
    repeat (split; [done|]). split.
    + intros l _ Hl. by apply appended_lists_other.
    + intros Hold. rewrite list_at_appended_stored. apply Forall_app. split.
      * eapply Forall_impl; [exact Hold|]. intros x.
        by apply valid_recipient_appended.
      * eapply Forall_impl; [exact Hitems|]. intros x.
        by apply valid_recipient_appended.
  - rewrite set_recipients_None. eexists _, _, _. split; [done|].
    repeat (split; [done|]). split.
    + intros l Hl _. cbn. rewrite lookup_insert_ne; [done|].
      intros <-. by apply (is_fresh (dom (lists w))).
    + intros _. unfold list_at. cbn. by rewrite lookup_total_insert_eq.
Qed.

(** X2.  Assigning a list object other than the stored one, all of whose
    elements are recipients, returns and extends the stored list in place:
    the envelope keeps its list object, which now holds what it held
    followed by the assigned elements, and the assigned list object is as
    it was. *)
Theorem set_recipients_extends_in_place fuel self w src :
  src ≠ _recipients self →
  Forall (valid_recipient w) (list_at w src) →
  length (list_at w src) ≤ fuel →
  ∃ w',
    set_recipients fuel (Some src) (self, w) = (Ok tt, (self, w'))
    ∧ list_at w' (_recipients self)
      = list_at w (_recipients self) ++ list_at w src
    ∧ list_at w' src = list_at w src.
Proof.
  intros Hne Hv Hfuel.
  exists (appended self (list_at w src) w). split; [|split].
  - by apply setter_loop_appends.
  - apply list_at_appended_stored.
  - by apply list_at_appended_other.
Qed.

Lemma set_recipients_extends_in_place_witness :
  ∃ w',
    set_recipients 3 (Some 11) (Examples.envelope None 16, Examples.world)
    = (Ok tt, (Examples.envelope None 16, w'))
    ∧ list_at w' 16 = [1] ++ [1; 2; 3]
    ∧ list_at w' 11 = [1; 2; 3].
Proof.
  apply (set_recipients_extends_in_place 3 (Examples.envelope None 16)
           Examples.world 11).
  - by_decision.
  - by_decision.
  - by_decision.
Defined.

Lemma allocated_not_fresh w l : l ∈ dom (lists w) → l ≠ fresh (dom (lists w)).
Proof. intros Hl ->. by apply (is_fresh (dom (lists w))). Qed.

(** X3.  Assigning [None] does not clear the stored list in place: the
    envelope gets a new, empty list object, and every list object that
    existed, the one stored before included, keeps its contents. *)
Theorem set_recipients_None_new_object fuel self w :
  ∃ self' w',
    set_recipients fuel None (self, w) = (Ok tt, (self', w'))
    ∧ list_at w' (_recipients self') = []
    ∧ (_recipients self' ∉ dom (lists w))
    ∧ key self' = key self ∧ payload self' = payload self
    ∧ heap w' = heap w
    ∧ ∀ l, l ∈ dom (lists w) → list_at w' l = list_at w l.
Proof.
  rewrite set_recipients_None. eexists _, _. split; [done|].
  fold (init_world w). cbn [_recipients with_recipients].
  split; [|split; [apply is_fresh|]].
  - unfold init_world, list_at. cbn. by rewrite lookup_total_insert_eq.
  - repeat (split; [done|]). intros l _. apply init_world_list_at.
Qed.

(** X4.  Replacing the recipients takes two assignments: after [None]
    and then a list all of whose elements are recipients, the envelope
    holds exactly the elements of that list, whatever it held before. *)
Theorem set_recipients_None_then_list fuel self w src :
  Forall (valid_recipient w) (list_at w src) →
  length (list_at w src) ≤ fuel →
  ∃ self' w',
    (set_recipients fuel None ;;; set_recipients fuel (Some src)) (self, w)
    = (Ok tt, (self', w'))
    ∧ list_at w' (_recipients self') = list_at w src.
Proof.
  intros Hv Hfuel. unfold bind. rewrite set_recipients_None.
  fold (init_world w).
  set (self1 := with_recipients (fresh (dom (lists w))) self).
  assert (Hstored : list_at (init_world w) (_recipients self1) = []).
  { unfold init_world, list_at. cbn. by rewrite lookup_total_insert_eq. }
  destruct (decide (list_at w src = [])) as [Hnil|Hne].
  - exists self1, (init_world w). split; [|by rewrite Hstored, Hnil].
    apply setter_loop_stop. by rewrite init_world_list_at, Hnil.
  - assert (Hsrc : src ≠ _recipients self1) by (by apply fresh_list_ne).
    exists self1, (appended self1 (list_at (init_world w) src) (init_world w)).
    split.
    + apply setter_loop_appends; rewrite ?init_world_list_at; done.
    + by rewrite list_at_appended_stored, Hstored, init_world_list_at.
Qed.

Lemma set_recipients_None_then_list_witness :
  ∃ self' w',
    (set_recipients 3 None ;;; set_recipients 3 (Some 11))
      (Examples.envelope None 16, Examples.world)
    = (Ok tt, (self', w'))
    ∧ list_at w' (_recipients self') = [1; 2; 3].
Proof.
  apply (set_recipients_None_then_list 3 (Examples.envelope None 16)
           Examples.world 11).
  - by_decision.
  - by_decision.
Defined.

(** X5.  Assigning the envelope its own stored list: when the list is
    empty the assignment returns and changes nothing; when it is not, and
    holds recipients only, the assignment does not return, whatever the
    step bound. *)
Theorem set_recipients_self_assignment self w :
  (list_at w (_recipients self) = [] →
   ∀ fuel,
     set_recipients fuel (Some (_recipients self)) (self, w) = (Ok tt, (self, w)))
  ∧ (list_at w (_recipients self) ≠ [] →
     Forall (valid_recipient w) (list_at w (_recipients self)) →
     ∀ fuel,
       fst (set_recipients fuel (Some (_recipients self)) (self, w)) = OutOfFuel).
Proof.
  split.
  - intros Hnil fuel. apply setter_loop_stop. by rewrite Hnil.
  - intros Hne Hv fuel. apply setter_loop_alias_diverges; [|done].
    destruct (list_at w (_recipients self)); [done|]. cbn. lia.
Qed.

Lemma set_recipients_self_assignment_witness :
  set_recipients 0 (Some 10) (Examples.envelope None 10, Examples.world)
  = (Ok tt, (Examples.envelope None 10, Examples.world))
  ∧ ∀ fuel,
      fst (set_recipients fuel (Some 11)
             (Examples.envelope None 11, Examples.world)) = OutOfFuel.
Proof.
  split.
  - apply (proj1 (set_recipients_self_assignment
                    (Examples.envelope None 10) Examples.world)).
    reflexivity.
  - apply (proj2 (set_recipients_self_assignment
                    (Examples.envelope None 11) Examples.world)).
    + by_decision.
    + by_decision.
Defined.

(** ** The constructor *)

(** X6.  Construction with a list all of whose elements are recipients
    returns an envelope that holds exactly those elements in a list object
    of its own: the object is new, every list object that existed (the
    caller's included) keeps its contents, the recipient objects are
    untouched, and absent headers are stored as empty maps. *)
Theorem init_owns_its_list fuel ph uh pl aad k src w :
  Forall (valid_recipient w) (list_at w src) →
  length (list_at w src) ≤ fuel →
  ∃ msg w',
    __init__ fuel ph uh pl aad k (Some src) w = (Ok msg, w')
    ∧ list_at w' (_recipients msg) = list_at w src
    ∧ (_recipients msg ∉ dom (lists w))
    ∧ (∀ l, l ∈ dom (lists w) → list_at w' l = list_at w l)
    ∧ heap w' = heap w
    ∧ phdr msg = default [] ph ∧ uhdr msg = default [] uh
    ∧ payload msg = pl ∧ external_aad msg = aad ∧ key msg = k.
Proof.
  intros Hv Hfuel. rewrite init_unfold. cbn zeta.
  set (self := mkEncMessage _ _ _ _ _ _).
  assert (Hfresh : list_at w (_recipients self) = []).
  { apply list_at_unallocated, is_fresh. }
  destruct (decide (list_at w src = [])) as [Hnil|Hne].
  - unfold set_recipients. rewrite setter_loop_stop
      by (by rewrite init_world_list_at, Hnil).
    exists self, (init_world w). split; [done|].
    split; [by rewrite init_world_list_at, Hnil|].
    split; [apply is_fresh|]. split; [|done].
    intros l _. apply init_world_list_at.
  - assert (Hsrc : src ≠ _recipients self) by (by apply fresh_list_ne).
    unfold set_recipients. rewrite setter_loop_appends;
      rewrite ?init_world_list_at; try done.
    exists self, (appended self (list_at w src) (init_world w)).
    split; [done|].
    split; [by rewrite list_at_appended_stored, init_world_list_at, Hfresh|].
    split; [apply is_fresh|]. split.
    + intros l Hl. rewrite list_at_appended_other, init_world_list_at; [done|].
      by apply allocated_not_fresh.
    + by rewrite heap_appended.
Qed.

Lemma init_owns_its_list_witness :
  ∃ msg w',
    __init__ 3 None None [x68; x69] [] None (Some 11) Examples.world
    = (Ok msg, w')
    ∧ list_at w' (_recipients msg) = [1; 2; 3]
    ∧ _recipients msg ≠ 11
    ∧ list_at w' 11 = [1; 2; 3]
    ∧ phdr msg = [].
Proof.
  destruct (init_owns_its_list 3 None None [x68; x69] [] None 11 Examples.world)
    as (msg & w' & Hrun & Hlist & Hnew & Hold & _ & Hph & _).
  - by_decision.
  - by_decision.
  - exists msg, w'. split; [exact Hrun|]. split; [exact Hlist|].
    split; [|split; [|exact Hph]].
    + intros Heq. apply Hnew. rewrite Heq. by_decision.
    + apply (Hold 11). by_decision.
Defined.

(** ** Decode *)

Section DecodeMore.
Context `{Collaborators}.

(** The [try] body of [from_cose_obj] up to the assignment, when the fourth
    element is an array the factory gets through. *)
Lemma decode_body_reaches_setter fuel items rest ls h' msg w1 :
  factory_run items (heap w1) = (inr ls, h') →
  (popped <- pop0 (CArray items :: rest) ;;
   items0 <- py_iter (fst popped) ;;
   rs <- create_all items0 ;;
   l <- new_list rs ;;
   set_recipients fuel (Some l)) (msg, w1)
  = set_recipients fuel (Some (fresh (dom (lists w1))))
      (msg, with_lists (<[fresh (dom (lists w1)) := ls]> (lists w1))
              (with_heap h' w1)).
Proof.
  intros Hrun.
  unfold bind at 1. cbn [pop0 ret fst]. unfold bind at 1. cbn [py_iter ret].
  unfold bind at 1. rewrite create_all_factory_run, Hrun.
  cbn [fst snd outcome_of_sum].
  unfold bind at 1. unfold new_list. by munfold.
Qed.

(** X7.  Decoding an array whose fourth element is an array of recipient
    structures, each of which the factory rebuilds into a recipient: the
    message comes back with the parsed fields and with exactly the rebuilt
    recipients, in the order of the wire; what follows the fourth element
    is ignored, and no list object that existed is changed. *)
Theorem from_cose_obj_rebuilds_recipients
    fuel cose_obj w ph uh pl items rest ls h' :
  EncCommon_from_cose_obj cose_obj = inr (ph, uh, pl, CArray items :: rest) →
  factory_run items (heap w) = (inr ls, h') →
  Forall (fun l => issubclass_CoseRecipient (ob_type (h' !!! l)) = true) ls →
  length items ≤ fuel →
  ∃ msg w',
    from_cose_obj fuel cose_obj w = (Ok msg, w')
    ∧ list_at w' (_recipients msg) = ls
    ∧ phdr msg = ph ∧ uhdr msg = uh ∧ payload msg = pl
    ∧ heap w' = h'
    ∧ ∀ l, l ∈ dom (lists w) → list_at w' l = list_at w l.
Proof.
  intros Hbase Hrun Hvalid Hfuel.
  rewrite (from_cose_obj_unfold _ _ _ _ _ _ _ Hbase).
  unfold decode_recipients, try_except_Index_Value.
  pose proof (parsed_recipients_empty ph uh pl w) as Hemp.
  pose proof (parsed_recipients_allocated ph uh pl w) as Halloc.
  pose proof (parsed_list_at ph uh pl w) as Hold.
  assert (Hdom : dom (lists w) ⊆ dom (lists (snd (parsed ph uh pl w)))).
  { unfold parsed, init_world. cbn. rewrite !dom_insert. set_solver. }
  assert (Hnew : _recipients (fst (parsed ph uh pl w)) ∉ dom (lists w)).
  { unfold parsed. cbn [fst _recipients]. intros Hin.
    apply (is_fresh (dom (lists (init_world w)))).
    revert Hin. generalize (fresh (dom (lists (init_world w)))). intros l0 Hin.
    unfold init_world. cbn. rewrite dom_insert_L. set_solver. }
  assert (Hfields : phdr (fst (parsed ph uh pl w)) = ph
                    ∧ uhdr (fst (parsed ph uh pl w)) = uh
                    ∧ payload (fst (parsed ph uh pl w)) = pl
                    ∧ heap (snd (parsed ph uh pl w)) = heap w) by done.
  destruct (parsed ph uh pl w) as [msg w1].
  cbn [fst snd] in Hemp, Halloc, Hold, Hdom, Hnew, Hfields.
  destruct Hfields as (Hph & Huh & Hpl & Hw1).
  rewrite <- Hw1 in Hrun.
  rewrite (decode_body_reaches_setter _ _ _ _ _ _ _ Hrun).
  set (l := fresh (dom (lists w1))).
  set (w4 := with_lists (<[l := ls]> (lists w1)) (with_heap h' w1)).
  assert (Hl : l ≠ _recipients msg) by (apply not_eq_sym, allocated_not_fresh, Halloc).
  assert (Hsrc : list_at w4 l = ls).
  { unfold list_at, w4. cbn. by rewrite lookup_total_insert_eq. }
  assert (Hother : ∀ l', l' ≠ l → list_at w4 l' = list_at w1 l').
  { intros l' Hne. unfold list_at, w4. cbn. by rewrite lookup_total_insert_ne. }
  assert (Hlen : length ls ≤ fuel).
  { by rewrite (factory_run_length _ _ _ _ Hrun). }
  rewrite set_recipients_appends; rewrite ?Hsrc; try done.
  exists msg, (appended msg ls w4). split; [done|].
  split; [by rewrite list_at_appended_stored, Hother, Hemp|].
  repeat (split; [done|]). split; [by rewrite heap_appended|].
  intros l' Hl'.
  assert (l' ≠ _recipients msg) by (by intros ->).
  apply Hdom in Hl'.
  rewrite list_at_appended_other, Hother, Hold; [done| |done].
  by apply allocated_not_fresh.
Qed.

End DecodeMore.

Lemma from_cose_obj_rebuilds_recipients_witness :
  ∃ msg w',
    @from_cose_obj Reference.collaborators 1 (Examples.wire4 ++ [CInt 0])
      Examples.world = (Ok msg, w')
    ∧ list_at w' (_recipients msg) = [8]
    ∧ payload msg = [x68; x69]
    ∧ heap w' !! 8 = Some (mkObject KeyWrap [xaa; xbb] [])
    ∧ list_at w' 11 = [1; 2; 3].
Proof.
  destruct (@from_cose_obj_rebuilds_recipients Reference.collaborators 1
              (Examples.wire4 ++ [CInt 0]) Examples.world
              [(1, 1)%Z] [] [x68; x69] [Examples.wire_recipient] [CInt 0]
              [8] (<[8 := mkObject KeyWrap [xaa; xbb] []]> Examples.objects))
    as (msg & w' & Hrun & Hlist & _ & _ & Hpl & Hheap & Hold).
  - reflexivity.
  - vm_compute. reflexivity.
  - by_decision.
  - by_decision.
  - exists msg, w'. split; [exact Hrun|]. split; [exact Hlist|].
    split; [exact Hpl|]. split; [by rewrite Hheap|].
    apply (Hold 11). by_decision.
Defined.

Section DecodeErrors.
Context `{Collaborators}.

(** X8.  Type errors of the recipients step are not caught by the
    [except] clause: decoding an array whose fourth element is an integer
    raises the type error of the iteration, and when the factory hands back
    an object that is not a recipient the setter's type error is raised. *)
Theorem from_cose_obj_type_errors_propagate fuel cose_obj w ph uh pl rest :
  (∀ z,
     EncCommon_from_cose_obj cose_obj = inr (ph, uh, pl, CInt z :: rest) →
     fst (from_cose_obj fuel cose_obj w)
     = Raise (TypeError "'int' object is not iterable"))
  ∧ (∀ items ls h' pre bad post,
       EncCommon_from_cose_obj cose_obj = inr (ph, uh, pl, CArray items :: rest) →
       factory_run items (heap w) = (inr ls, h') →
       ls = pre ++ bad :: post →
       Forall (fun l => issubclass_CoseRecipient (ob_type (h' !!! l)) = true) pre →
       issubclass_CoseRecipient (ob_type (h' !!! bad)) = false →
       length pre < fuel →
       fst (from_cose_obj fuel cose_obj w) = Raise not_a_recipient).
Proof.
  split.
  - intros z Hbase. rewrite (from_cose_obj_unfold _ _ _ _ _ _ _ Hbase).
    unfold decode_recipients, try_except_Index_Value.
    by destruct (parsed ph uh pl w) as [msg w1].
  - intros items ls h' pre bad post Hbase Hrun -> Hpre Hbad Hfuel.
    rewrite (from_cose_obj_unfold _ _ _ _ _ _ _ Hbase).
    unfold decode_recipients, try_except_Index_Value.
    assert (Hw1 : heap (snd (parsed ph uh pl w)) = heap w) by done.
    destruct (parsed ph uh pl w) as [msg w1]. cbn [snd] in Hw1.
    rewrite <- Hw1 in Hrun.
    rewrite (decode_body_reaches_setter _ _ _ _ _ _ _ Hrun).
    set (l := fresh (dom (lists w1))).
    set (w4 := with_lists _ _).
    unfold set_recipients.
    rewrite (setter_loop_first_invalid fuel l msg w4 pre bad post); try done.
    + unfold list_at, w4. cbn. by rewrite lookup_total_insert_eq.
    + unfold valid_recipient, type_of. cbn. by rewrite Hbad.
Qed.

End DecodeErrors.

Lemma from_cose_obj_type_errors_propagate_witness :
  fst (@from_cose_obj Reference.collaborators 1 (Examples.wire3 ++ [CInt 5])
         Examples.world)
  = Raise (TypeError "'int' object is not iterable")
  ∧ fst (@from_cose_obj Cases.careless_factory 1 Examples.wire4 Examples.world)
    = Raise not_a_recipient.
Proof.
  split.
  - apply (proj1 (@from_cose_obj_type_errors_propagate Reference.collaborators
                    1 (Examples.wire3 ++ [CInt 5]) Examples.world
                    [(1, 1)%Z] [] [x68; x69] []) 5%Z).
    reflexivity.
  - apply (proj2 (@from_cose_obj_type_errors_propagate Cases.careless_factory
                    1 Examples.wire4 Examples.world
                    [(1, 1)%Z] [] [x68; x69] [])
             [Examples.wire_recipient] [6] Examples.objects [] 6 []).
    + reflexivity.
    + reflexivity.
    + reflexivity.
    + constructor.
    + reflexivity.
    + by_decision.
Defined.

(** ** The key-wrap pass and the carrier payloads *)

Lemma settle_one_nonempty k c : k ≠ [] → settle_one k c ≠ [].
Proof. intros Hk. by destruct c. Qed.

Lemma settled_keys_nonempty cs : ∀ k, k ≠ [] → Forall (fun c => c ≠ []) (settled_keys k cs).
Proof.
  induction cs as [|c cs IH]; intros k Hk; cbn; constructor.
  - by apply settle_one_nonempty.
  - by apply IH, settle_one_nonempty.
Qed.

Section KeyWrapCarriers.
Context `{Collaborators}.

(** The key-wrap branch of [encrypt], down to the pass. *)
Lemma encrypt_key_wrap_unfold self w :
  classifies self w as_key_wrap →
  encrypt (self, w)
  = let alg := get_attr_alg self in
    let draw := os_urandom (get_key_length alg) (entropy w) in
    let w1 := log (EvUrandom (get_key_length alg)) (with_entropy (snd draw) w) in
    match key_wrap_loop alg (list_at w (_recipients self)) (fst draw) (self, w1) with
    | (Ok kb, (self1, w2)) =>
        let cek := SymmetricKey kb (Some alg) [EncryptOp] in
        (outcome_of_sum (EncCommon_encrypt (with_key (Some cek) self1)),
         (with_key (Some cek) self1, log (EvSeal (Some cek)) w2))
    | (Raise e, c) => (Raise e, c)
    | (OutOfFuel, c) => (OutOfFuel, c)
    end.
Proof.
  intros (r_types & Hv & Hde & Hdka & Hkw).
  rewrite encrypt_unfold, Hv.
  rewrite (bool_decide_eq_false_2 _ Hde), (bool_decide_eq_false_2 _ Hdka).
  assert (Hor : bool_decide (KeyWrap ∈ r_types)
                || bool_decide (KeyAgreementWithKeyWrap ∈ r_types) = true).
  { destruct Hkw as [Hk|Hk]; rewrite (bool_decide_eq_true_2 _ Hk);
      [done|by rewrite orb_true_r]. }
  rewrite Hor.
  unfold bind at 1. rewrite call_urandom_run.
  unfold bind at 1. rewrite self_recipients_run.
  unfold bind at 1. cbn zeta.
  change (list_at (log _ (with_entropy _ w)) (_recipients self))
    with (list_at w (_recipients self)).
  destruct (key_wrap_loop _ _ _ _) as [[kb|e|] [self1 w2]]; [|done|done].
  apply set_key_then_seal.
Qed.

(** A completed pass over distinct recipients whose [encrypt] assigns no
    carrier: the key returned, and the carrier each recipient is left
    with. *)
Lemma key_wrap_loop_carriers alg rs :
  wrap_keeps_carriers →
  ∀ k self w kf c',
    NoDup rs →
    key_wrap_loop alg rs k (self, w) = (Ok kf, c') →
    kf = settled_key k (carriers (heap w) rs)
    ∧ fst c' = self
    ∧ carriers (heap (snd c')) rs = settled_keys k (carriers (heap w) rs)
    ∧ ∀ r', r' ∉ rs → r_payload (heap (snd c') !!! r') = r_payload (heap w !!! r').
Proof.
  intros Hkeep.
  induction rs as [|r rs IH]; intros k self w kf c' Hnd Hrun.
  - cbn in Hrun. injection Hrun as <- <-. by cbn.
  - apply NoDup_cons in Hnd as [Hr Hnd].
    cbn [key_wrap_loop] in Hrun. unfold bind at 1 in Hrun.
    cbn [get_world fst snd] in Hrun.
    set (p := r_payload (heap w !!! r)) in *.
    set (step := match p with
                 | [] => _
                 | _ => _
                 end) in Hrun.
    assert (∃ h1,
              step (self, w) = (Ok (settle_one k p), (self, with_heap h1 w))
              ∧ r_payload (h1 !!! r) = settle_one k p
              ∧ ∀ r', r' ≠ r → r_payload (h1 !!! r') = r_payload (heap w !!! r'))
      as (h1 & Hstep & Hat & Hother).
    { subst step. destruct p eqn:Hp.
      - eexists. split; [unfold set_payload; munfold; done|].
        split.
        + by rewrite lookup_total_insert_eq.
        + intros r' Hne. by rewrite lookup_total_insert_ne.
      - exists (heap w). split; [by destruct w|]. by split. }
    unfold bind at 1 in Hrun. rewrite Hstep in Hrun.
    unfold bind at 1 in Hrun. rewrite call_recipient_encrypt_run in Hrun.
    cbn [heap with_heap] in Hrun.
    set (h2 := snd (recipient_encrypt r alg h1)) in *.
    destruct (fst (recipient_encrypt r alg h1)) as [e|b];
      cbn [outcome_of_sum] in Hrun; [done|].
    assert (Hh2 : ∀ r', r_payload (h2 !!! r') = r_payload (h1 !!! r')).
    { intros r'. subst h2. apply Hkeep. }
    assert (Hcs : carriers h2 rs = carriers (heap w) rs).
    { unfold carriers. apply map_ext_in. intros r' Hin.
      apply list_elem_of_In in Hin.
      assert (r' ≠ r) by (intros ->; done).
      rewrite Hh2. by apply Hother. }
    destruct (IH _ _ _ _ _ Hnd Hrun) as (Hkf & Hself & Hafter & Hframe).
    cbn [heap lists entropy trace log with_heap] in Hkf, Hafter, Hframe.
    rewrite Hcs in Hkf, Hafter. split; [done|]. split; [done|]. split.
    + change (carriers (heap (snd c')) (r :: rs))
        with (r_payload (heap (snd c') !!! r) :: carriers (heap (snd c')) rs).
      change (carriers (heap w) (r :: rs)) with (p :: carriers (heap w) rs).
      cbn [settled_keys]. rewrite Hafter. f_equal.
      rewrite (Hframe r Hr), Hh2. exact Hat.
    + intros r' Hr'. apply not_elem_of_cons in Hr' as [Hne Hr'].
      rewrite (Hframe r' Hr'), Hh2. by apply Hother.
Qed.

End KeyWrapCarriers.

(** ** The pass when the recipients' encrypt assigns no carrier *)

Section WrapPass.
Context `{Collaborators}.

(** A pass that completes on [r :: rest] completes on [rest], from the
    bytes settled at [r] and the objects the visit of [r] leaves. *)
Lemma wrap_pass_cons alg r rest k h kf h' calls :
  wrap_pass alg (r :: rest) k h = (inr kf, h', calls) →
  ∃ calls',
    wrap_pass alg rest (settle_one k (r_payload (h !!! r)))
      (snd (recipient_encrypt r alg (take_current r k h)))
    = (inr kf, h', calls').
Proof.
  cbn [wrap_pass]. intros Hrun.
  destruct (recipient_encrypt r alg (take_current r k h)) as [[e|b] h2];
    [done|].
  cbn [snd].
  destruct (wrap_pass alg rest _ h2) as [[res h3] calls'].
  injection Hrun as -> -> _. by eexists.
Qed.

(** The carrier payloads after the visit of [r]: [r] holds the settled
    bytes, every other recipient what it held. *)
Lemma visit_carrier alg r k h r' :
  wrap_keeps_carriers →
  r_payload (snd (recipient_encrypt r alg (take_current r k h)) !!! r')
  = if decide (r' = r) then settle_one k (r_payload (h !!! r))
    else r_payload (h !!! r').
Proof.
  intros Hkeep. rewrite Hkeep. destruct (decide (r' = r)) as [->|Hne].
  - apply take_current_at.
  - by rewrite take_current_other.
Qed.

(** A carrier payload that is not empty is never assigned. *)
Lemma wrap_pass_populated_stay alg rs :
  wrap_keeps_carriers →
  ∀ k h kf h' calls,
    wrap_pass alg rs k h = (inr kf, h', calls) →
    ∀ r', r_payload (h !!! r') ≠ [] →
          r_payload (h' !!! r') = r_payload (h !!! r').
Proof.
  intros Hkeep.
  induction rs as [|r rs IH]; intros k h kf h' calls Hrun r' Hr'.
  - cbn in Hrun. by injection Hrun as _ <- _.
  - apply wrap_pass_cons in Hrun as [calls' Hrun].
    set (h2 := snd (recipient_encrypt r alg (take_current r k h))) in *.
    assert (Hsame : r_payload (h2 !!! r') = r_payload (h !!! r')).
    { unfold h2. rewrite visit_carrier by done.
      destruct (decide (r' = r)) as [->|]; [|done].
      by destruct (r_payload (h !!! r)). }
    rewrite <- Hsame. apply (IH _ _ _ _ _ Hrun). by rewrite Hsame.
Qed.

(** The bytes the pass ends with are what the last recipient is left
    with. *)
Lemma wrap_pass_last alg pre r :
  wrap_keeps_carriers →
  ∀ k h kf h' calls,
    wrap_pass alg (pre ++ [r]) k h = (inr kf, h', calls) →
    r_payload (h' !!! r) = kf.
Proof.
  intros Hkeep.
  induction pre as [|x pre IH]; intros k h kf h' calls Hrun.
  - cbn [app] in Hrun. apply wrap_pass_cons in Hrun as [calls' Hrun].
    cbn in Hrun. injection Hrun as <- <- _.
    rewrite visit_carrier by done. by rewrite decide_True.
  - rewrite <- app_comm_cons in Hrun.
    apply wrap_pass_cons in Hrun as [calls' Hrun]. by eapply IH.
Qed.

(** Started from bytes that are not empty, the pass leaves no recipient of
    the list with an empty carrier. *)
Lemma wrap_pass_populates alg rs :
  wrap_keeps_carriers →
  ∀ k h kf h' calls,
    k ≠ [] →
    wrap_pass alg rs k h = (inr kf, h', calls) →
    ∀ r, r ∈ rs → r_payload (h' !!! r) ≠ [].
Proof.
  intros Hkeep.
  induction rs as [|r rs IH]; intros k h kf h' calls Hk Hrun r' Hr'.
  - by apply elem_of_nil in Hr'.
  - apply wrap_pass_cons in Hrun as [calls' Hrun].
    assert (Hs : settle_one k (r_payload (h !!! r)) ≠ [])
      by (by apply settle_one_nonempty).
    apply elem_of_cons in Hr' as [->|Hr']; [|by eapply IH].
    assert (Hat : r_payload (snd (recipient_encrypt r alg (take_current r k h))
                             !!! r) ≠ []).
    { rewrite visit_carrier by done. by rewrite decide_True. }
    rewrite (wrap_pass_populated_stay alg rs Hkeep _ _ _ _ _ Hrun r Hat).
    exact Hat.
Qed.

(** Over recipients that all carry a payload the pass assigns nothing. *)
Lemma wrap_pass_all_populated alg rs :
  wrap_keeps_carriers →
  ∀ k h kf h' calls,
    (∀ r, r ∈ rs → r_payload (h !!! r) ≠ []) →
    wrap_pass alg rs k h = (inr kf, h', calls) →
    ∀ r', r_payload (h' !!! r') = r_payload (h !!! r').
Proof.
  intros Hkeep.
  induction rs as [|r rs IH]; intros k h kf h' calls Hall Hrun r'.
  - cbn in Hrun. by injection Hrun as _ <- _.
  - apply wrap_pass_cons in Hrun as [calls' Hrun].
    set (h2 := snd (recipient_encrypt r alg (take_current r k h))) in *.
    assert (Hsame : ∀ x, r_payload (h2 !!! x) = r_payload (h !!! x)).
    { intros x. unfold h2. rewrite visit_carrier by done.
      destruct (decide (x = r)) as [->|]; [|done].
      pose proof (Hall r ltac:(left)) as Hr.
      by destruct (r_payload (h !!! r)). }
    rewrite <- Hsame. eapply IH; [|exact Hrun].
    intros x Hx. rewrite Hsame. apply Hall. by right.
Qed.

(** Over recipients whose carrier is empty or already holds the current
    bytes, the pass keeps the current bytes and leaves them with every
    recipient of the list. *)
Lemma wrap_pass_all_current alg rs :
  wrap_keeps_carriers →
  ∀ k h kf h' calls,
    (∀ r, r ∈ rs → r_payload (h !!! r) = [] ∨ r_payload (h !!! r) = k) →
    wrap_pass alg rs k h = (inr kf, h', calls) →
    kf = k
    ∧ (∀ r, r ∈ rs → r_payload (h' !!! r) = k)
    ∧ (∀ r', r_payload (h !!! r') = k → r_payload (h' !!! r') = k).
Proof.
  intros Hkeep.
  induction rs as [|r rs IH]; intros k h kf h' calls Hall Hrun.
  - cbn in Hrun. injection Hrun as <- <- _. split; [done|]. split; [|done].
    intros r Hr. by apply elem_of_nil in Hr.
  - apply wrap_pass_cons in Hrun as [calls' Hrun].
    assert (Hs : settle_one k (r_payload (h !!! r)) = k).
    { destruct (Hall r ltac:(left)) as [He|He]; rewrite He; [done|].
      by destruct k. }
    rewrite Hs in Hrun.
    set (h2 := snd (recipient_encrypt r alg (take_current r k h))) in *.
    assert (Hvis : ∀ x, r_payload (h2 !!! x)
                        = if decide (x = r) then k else r_payload (h !!! x)).
    { intros x. unfold h2. by rewrite visit_carrier, Hs. }
    destruct (IH k h2 kf h' calls') as (Hkf & Hrest & Hpres); [|done|].
    { intros x Hx. rewrite Hvis. destruct (decide (x = r)); [by right|].
      apply Hall. by right. }
    split; [done|]. split.
    + intros x Hx. apply elem_of_cons in Hx as [->|Hx]; [|by apply Hrest].
      apply Hpres. by rewrite Hvis, decide_True.
    + intros x Hx. apply Hpres. rewrite Hvis. by destruct (decide (x = r)).
Qed.

Lemma carriers_constant h rs k :
  (∀ r, r ∈ rs → r_payload (h !!! r) = k) →
  carriers h rs = replicate (length rs) k.
Proof.
  induction rs as [|r rs IH]; intros Hall; [done|].
  cbn. rewrite (Hall r) by left. f_equal. apply IH.
  intros x Hx. apply Hall. by right.
Qed.

(** What [encrypt] has done when it returns on the key-wrap branch: the
    pass has completed, and the bytes it ended with are the key. *)
Lemma encrypt_key_wrap_completes self w c self' w' :
  classifies self w as_key_wrap →
  encrypt (self, w) = (Ok c, (self', w')) →
  let alg := get_attr_alg self in
  let rs := list_at w (_recipients self) in
  let k0 := fst (os_urandom (get_key_length alg) (entropy w)) in
  ∃ kb calls,
    wrap_pass alg rs k0 (heap w) = (inr kb, heap w', calls)
    ∧ self' = with_key (Some (SymmetricKey kb (Some alg) [EncryptOp])) self
    ∧ lists w' = lists w.
Proof.
  intros Hcls Hrun alg rs k0.
  rewrite (encrypt_key_wrap_unfold _ _ Hcls) in Hrun. cbn zeta in Hrun.
  rewrite key_wrap_loop_wrap_pass in Hrun.
  cbn [heap lists entropy trace log with_entropy] in Hrun.
  fold alg rs k0 in Hrun.
  destruct (wrap_pass alg rs k0 (heap w)) as [[[e|kb] h'] calls];
    cbn [outcome_of_sum] in Hrun; [done|].
  apply (f_equal snd) in Hrun. cbn [snd] in Hrun.
  injection Hrun as <- <-. by exists kb, calls.
Qed.

End WrapPass.

Section KeyWrapEncrypt.
Context `{Collaborators}.

(** What [encrypt] leaves when it returns on the key-wrap branch. *)
Lemma encrypt_key_wrap_returns self w c self' w' :
  classifies self w as_key_wrap →
  NoDup (list_at w (_recipients self)) →
  wrap_keeps_carriers →
  encrypt (self, w) = (Ok c, (self', w')) →
  let alg := get_attr_alg self in
  let rs := list_at w (_recipients self) in
  let k0 := fst (os_urandom (get_key_length alg) (entropy w)) in
  let cs := carriers (heap w) rs in
  self' = with_key (Some (SymmetricKey (settled_key k0 cs) (Some alg) [EncryptOp]))
            self
  ∧ carriers (heap w') rs = settled_keys k0 cs
  ∧ lists w' = lists w.
Proof.
  intros Hcls Hnd Hkeep Hrun alg rs k0 cs.
  destruct (encrypt_frame self w) as (res & k' & w0 & Hframe & Hlists & _).
  rewrite Hrun in Hframe. injection Hframe as <- -> <-.
  rewrite (encrypt_key_wrap_unfold _ _ Hcls) in Hrun. cbn zeta in Hrun.
  fold alg rs k0 in Hrun.
  destruct (key_wrap_loop alg rs k0 _) as [[kb|e|] [self1 w2]] eqn:Hloop;
    [|done|done].
  destruct (key_wrap_loop_carriers alg rs Hkeep _ _ _ _ _ Hnd Hloop)
    as (Hkb & Hself & Hafter & _).
  cbn [fst snd heap log with_entropy] in Hkb, Hself, Hafter.
  fold cs in Hkb, Hafter. subst kb self1.
  apply (f_equal snd) in Hrun. cbn [snd] in Hrun.
  injection Hrun as Hself' Hw'. subst k' w'.
  split; [done|]. by split.
Qed.

(** X9.  When [encrypt] returns on the key-wrap branch (distinct
    recipients whose own [encrypt] assigns no carrier), every recipient is
    left with the key bytes that were in force at its visit: none of them
    has an empty carrier any more if the generated key was not empty, and
    the key of the envelope is the carrier of the last recipient. *)
Theorem encrypt_key_wrap_settles_carriers self w c self' w' :
  classifies self w as_key_wrap →
  NoDup (list_at w (_recipients self)) →
  wrap_keeps_carriers →
  encrypt (self, w) = (Ok c, (self', w')) →
  let alg := get_attr_alg self in
  let rs := list_at w (_recipients self) in
  let k0 := fst (os_urandom (get_key_length alg) (entropy w)) in
  carriers (heap w') rs = settled_keys k0 (carriers (heap w) rs)
  ∧ (k0 ≠ [] → Forall (fun carrier => carrier ≠ []) (carriers (heap w') rs))
  ∧ (rs ≠ [] →
     ∃ kb, last (carriers (heap w') rs) = Some kb
           ∧ key self' = Some (SymmetricKey kb (Some alg) [EncryptOp])).
Proof.
  intros Hcls Hnd Hkeep Hrun alg rs k0.
  destruct (encrypt_key_wrap_returns _ _ _ _ _ Hcls Hnd Hkeep Hrun)
    as (-> & Hafter & _).
  fold alg rs k0 in Hafter. split; [done|]. split.
  - intros Hk0. rewrite Hafter. by apply settled_keys_nonempty.
  - intros Hrs. rewrite Hafter. cbn [key with_key].
    fold alg rs k0. rewrite settled_key_last.
    destruct (last (settled_keys k0 (carriers (heap w) rs))) as [kb|] eqn:Hlast.
    + by exists kb.
    + apply last_None in Hlast.
      destruct rs; [done|]. discriminate Hlast.
Qed.

(** X10.  When [encrypt] returns on the key-wrap branch, no recipient
    carried a payload before the call, and the recipients' own [encrypt]
    assigns no carrier payload, every recipient of the list, repeated or
    not, holds the one generated key, and that key is the key of the
    envelope. *)
Theorem encrypt_key_wrap_shares_generated_key self w c self' w' :
  classifies self w as_key_wrap →
  wrap_keeps_carriers →
  Forall (fun r => r_payload (heap w !!! r) = []) (list_at w (_recipients self)) →
  encrypt (self, w) = (Ok c, (self', w')) →
  let alg := get_attr_alg self in
  let rs := list_at w (_recipients self) in
  let k0 := fst (os_urandom (get_key_length alg) (entropy w)) in
  carriers (heap w') rs = replicate (length rs) k0
  ∧ key self' = Some (SymmetricKey k0 (Some alg) [EncryptOp]).
Proof.
  intros Hcls Hkeep Hempty Hrun alg rs k0.
  destruct (encrypt_key_wrap_completes _ _ _ _ _ Hcls Hrun)
    as (kb & calls & Hpass & -> & _).
  fold alg rs k0 in Hpass.
  assert (Hall : ∀ r, r ∈ rs → r_payload (heap w !!! r) = []
                               ∨ r_payload (heap w !!! r) = k0).
  { intros r Hr. left. rewrite Forall_forall in Hempty. by apply Hempty. }
  destruct (wrap_pass_all_current alg rs Hkeep _ _ _ _ _ Hall Hpass)
    as (-> & Hcs & _).
  split; [|done]. by apply carriers_constant.
Qed.

End KeyWrapEncrypt.

Section KeyWrapOrder.
Context `{Collaborators}.

(** X11.  When [encrypt] returns on the key-wrap branch, the last
    recipient of the list carried a payload before the call, and the
    recipients' own [encrypt] assigns no carrier payload, the key
    [encrypt] settles on is that payload, whatever [os.urandom] has produced
    and whatever the recipients before it carry (the last recipient may
    occur earlier in the list as well). *)
Theorem encrypt_key_wrap_last_populated_wins self w pre r c self' w' :
  classifies self w as_key_wrap →
  wrap_keeps_carriers →
  list_at w (_recipients self) = pre ++ [r] →
  r_payload (heap w !!! r) ≠ [] →
  encrypt (self, w) = (Ok c, (self', w')) →
  key self'
  = Some (SymmetricKey (r_payload (heap w !!! r)) (Some (get_attr_alg self))
            [EncryptOp]).
Proof.
  intros Hcls Hkeep Hrs Hp Hrun.
  destruct (encrypt_key_wrap_completes _ _ _ _ _ Hcls Hrun)
    as (kb & calls & Hpass & -> & _).
  cbn [key with_key]. do 3 f_equal.
  rewrite <- (wrap_pass_populated_stay _ _ Hkeep _ _ _ _ _ Hpass r Hp).
  rewrite Hrs in Hpass.
  by rewrite (wrap_pass_last _ _ _ Hkeep _ _ _ _ _ Hpass).
Qed.

(** X12.  When two calls of [encrypt] in a row on the same envelope both
    take the key-wrap branch and return, and the recipient list is not
    empty, the key generated by the first call is not empty, and the
    recipients' own [encrypt] assigns no carrier payload, then the second
    call establishes no new key: the first call has left every recipient
    with a carrier payload, so the second pass assigns nothing and,
    whatever bytes it has generated itself, ends with the key and the
    carrier payloads the first call left. *)
Theorem encrypt_again_reuses_key self w c1 self1 w1 c2 self2 w2 :
  classifies self w as_key_wrap →
  wrap_keeps_carriers →
  list_at w (_recipients self) ≠ [] →
  fst (os_urandom (get_key_length (get_attr_alg self)) (entropy w)) ≠ [] →
  encrypt (self, w) = (Ok c1, (self1, w1)) →
  classifies self1 w1 as_key_wrap →
  encrypt (self1, w1) = (Ok c2, (self2, w2)) →
  key self2 = key self1
  ∧ carriers (heap w2) (list_at w (_recipients self))
    = carriers (heap w1) (list_at w (_recipients self)).
Proof.
  intros Hcls Hkeep Hne Hk0 Hrun1 Hcls1 Hrun2.
  destruct (encrypt_key_wrap_completes _ _ _ _ _ Hcls Hrun1)
    as (kb1 & calls1 & Hpass1 & Hself1 & Hlists).
  destruct (encrypt_key_wrap_completes _ _ _ _ _ Hcls1 Hrun2)
    as (kb2 & calls2 & Hpass2 & Hself2 & _).
  assert (Hrs1 : list_at w1 (_recipients self1) = list_at w (_recipients self)).
  { rewrite Hself1. unfold list_at. by rewrite Hlists. }
  assert (Halg1 : get_attr_alg self1 = get_attr_alg self)
    by (by rewrite Hself1).
  rewrite Hrs1, Halg1 in Hpass2. rewrite Halg1 in Hself2.
  set (rs := list_at w (_recipients self)) in *.
  pose proof (wrap_pass_populates _ _ Hkeep _ _ _ _ _ Hk0 Hpass1) as Hpop.
  pose proof (wrap_pass_all_populated _ _ Hkeep _ _ _ _ _ Hpop Hpass2) as Hsame.
  split.
  - destruct rs as [|x rs'] using rev_ind; [done|].
    rewrite Hself2, Hself1. cbn [key with_key]. do 3 f_equal.
    rewrite <- (wrap_pass_last _ _ _ Hkeep _ _ _ _ _ Hpass2).
    rewrite <- (wrap_pass_last _ _ _ Hkeep _ _ _ _ _ Hpass1).
    apply Hsame.
  - unfold carriers. apply map_ext. intros r. apply Hsame.
Qed.

End KeyWrapOrder.

Lemma reference_wrap_keeps_carriers :
  @wrap_keeps_carriers Reference.collaborators.
Proof. by intros r alg h r'. Qed.

Lemma cases_key_wrap_classifies l :
  l = 11 ∨ l = 18 ∨ l = 19 →
  ∀ k, @classifies Reference.collaborators (Examples.envelope k l) Cases.world
         as_key_wrap.
Proof.
  intros Hl k. exists [KeyWrap].
  split; [by destruct Hl as [->|[->| ->]]|]. unfold as_key_wrap. by_decision.
Qed.

Lemma repeated_key_wrap_classifies l :
  l = 20 ∨ l = 21 →
  ∀ k, @classifies Reference.collaborators (Examples.envelope k l) Cases.repeated
         as_key_wrap.
Proof.
  intros Hl k. exists [KeyWrap].
  split; [by destruct Hl as [->| ->]|]. unfold as_key_wrap. by_decision.
Qed.

Lemma encrypt_key_wrap_settles_carriers_witness :
  let cfg := (Examples.envelope None 19, Cases.world) in
  let after := snd (@encrypt Reference.collaborators cfg) in
  let k0 := fst (Reference.os_urandom 16 7) in
  carriers (heap (snd after)) [1; 3; 9] = [k0; k0; [xcc; xdd]]
  ∧ key (fst after)
    = Some (SymmetricKey [xcc; xdd] (Some Reference.A128GCM) [EncryptOp]).
Proof.
  intros cfg after k0.
  destruct (@encrypt_key_wrap_settles_carriers Reference.collaborators
              (Examples.envelope None 19) Cases.world
              [x68; x69; xcc; xdd] (fst after) (snd after))
    as (Hcarriers & _ & Hlast).
  - apply cases_key_wrap_classifies. auto.
  - by_decision.
  - exact reference_wrap_keeps_carriers.
  - vm_compute. reflexivity.
  - split; [exact Hcarriers|].
    destruct Hlast as (kb & Hkb & Hkey); [discriminate|].
    rewrite Hkey. vm_compute in Hkb. by injection Hkb as <-.
Defined.

Lemma encrypt_key_wrap_shares_generated_key_witness :
  let cfg := (Examples.envelope None 21, Cases.repeated) in
  let after := snd (@encrypt Reference.collaborators cfg) in
  let k0 := fst (Reference.os_urandom 16 7) in
  carriers (heap (snd after)) [1; 3; 1] = [k0; k0; k0]
  ∧ key (fst after) = Some (SymmetricKey k0 (Some Reference.A128GCM) [EncryptOp]).
Proof.
  intros cfg after k0.
  apply (@encrypt_key_wrap_shares_generated_key Reference.collaborators
           (Examples.envelope None 21) Cases.repeated
           ([x68; x69] ++ k0) (fst after) (snd after)).
  - apply repeated_key_wrap_classifies. auto.
  - exact reference_wrap_keeps_carriers.
  - by_decision.
  - vm_compute. reflexivity.
Defined.

Lemma encrypt_key_wrap_last_populated_wins_witness :
  let cfg := (Examples.envelope None 19, Cases.world) in
  key (fst (snd (@encrypt Reference.collaborators cfg)))
  = Some (SymmetricKey [xcc; xdd] (Some Reference.A128GCM) [EncryptOp]).
Proof.
  intros cfg.
  apply (@encrypt_key_wrap_last_populated_wins Reference.collaborators
           (Examples.envelope None 19) Cases.world [1; 3] 9
           [x68; x69; xcc; xdd] _ (snd (snd (@encrypt Reference.collaborators cfg)))).
  - apply cases_key_wrap_classifies. auto.
  - exact reference_wrap_keeps_carriers.
  - reflexivity.
  - by_decision.
  - vm_compute. reflexivity.
Defined.

Lemma encrypt_again_reuses_key_witness :
  let cfg := (Examples.envelope None 20, Cases.repeated) in
  let first := snd (@encrypt Reference.collaborators cfg) in
  let second := snd (@encrypt Reference.collaborators first) in
  let k0 := fst (Reference.os_urandom 16 7) in
  (key (fst second) = key (fst first)
   ∧ carriers (heap (snd second)) [1; 2; 1] = carriers (heap (snd first)) [1; 2; 1])
  ∧ key (fst first) = Some (SymmetricKey k0 (Some Reference.A128GCM) [EncryptOp])
  ∧ carriers (heap (snd first)) [1; 2; 1] = [k0; [xaa; xbb]; k0]
  ∧ entropy (snd second) ≠ entropy (snd first).
Proof.
  intros cfg first second k0.
  split; [|by vm_compute].
  apply (@encrypt_again_reuses_key Reference.collaborators
           (Examples.envelope None 20) Cases.repeated
           ([x68; x69] ++ k0) (fst first) (snd first)
           ([x68; x69] ++ k0) (fst second) (snd second)).
  - apply repeated_key_wrap_classifies. auto.
  - exact reference_wrap_keeps_carriers.
  - by_decision.
  - by_decision.
  - vm_compute. reflexivity.
  - exists [KeyWrap]. split; [vm_compute; reflexivity|].
    unfold as_key_wrap. by_decision.
  - vm_compute. reflexivity.
Defined.

(** ** The branches of encrypt and decrypt *)

Section Branches.
Context `{Collaborators}.

(** [decrypt] changes nothing of the envelope but its key; it changes no
    list object and draws no randomness. *)
Lemma decrypt_frame recipient self w :
  ∃ res k' w',
    decrypt recipient (self, w) = (res, (with_key k' self, w'))
    ∧ lists w' = lists w ∧ entropy w' = entropy w
    ∧ res ≠ OutOfFuel.
Proof.
  assert (Hself : self = with_key (key self) self) by (by destruct self).
  assert (Hsame : ∀ e, ∃ res k' w',
            (@Raise bytes e, (self, w)) = (res, (with_key k' self, w'))
            ∧ lists w' = lists w ∧ entropy w' = entropy w ∧ res ≠ OutOfFuel).
  { intros e. exists (Raise e), (key self), w. by rewrite <- Hself. }
  rewrite decrypt_unfold.
  destruct (negb _); [apply Hsame|].
  destruct (verify_recipients _ _) as [e|r_types]; [apply Hsame|].
  case_bool_decide.
  { rewrite super_decrypt_run. eexists _, (key self), _.
    rewrite <- Hself. split; [done|]. repeat (split; [done|]).
    by destruct (EncCommon_decrypt self). }
  destruct (_ || _); [|apply Hsame].
  rewrite establish_then_seal. cbn zeta.
  destruct (fst (compute_cek _ _ _ _)) as [e|cek0].
  - eexists (Raise e), (key self), _. by rewrite <- Hself.
  - rewrite super_decrypt_run. eexists _, (Some cek0), _.
    split; [done|]. repeat (split; [done|]).
    by destruct (EncCommon_decrypt _).
Qed.

(** X13.  [encrypt] and [decrypt] assign no attribute of the envelope
    other than the key: headers, payload (the ciphertext is returned, not
    stored), external data and the recipient list are as before, on every
    exit path; no list object changes; [decrypt] draws no randomness; and
    both calls return or raise. *)
Theorem encrypt_decrypt_assign_only_key self w recipient :
  (same_but_key self (fst (snd (encrypt (self, w))))
   ∧ lists (snd (snd (encrypt (self, w)))) = lists w
   ∧ fst (encrypt (self, w)) ≠ OutOfFuel)
  ∧ (same_but_key self (fst (snd (decrypt recipient (self, w))))
     ∧ lists (snd (snd (decrypt recipient (self, w)))) = lists w
     ∧ entropy (snd (snd (decrypt recipient (self, w)))) = entropy w
     ∧ fst (decrypt recipient (self, w)) ≠ OutOfFuel).
Proof.
  split.
  - destruct (encrypt_frame self w) as (res & k' & w' & -> & Hlists & Hres).
    by repeat split.
  - destruct (decrypt_frame recipient self w)
      as (res & k' & w' & -> & Hlists & Hent & Hres).
    by repeat split.
Qed.

(** X14.  When the classification names none of the four variants (an
    unknown subclass of [CoseRecipient], or no class at all), [encrypt]
    raises the Unsupported error, and so does [decrypt] for a recipient the
    lookup finds; nothing is called and nothing is changed. *)
Theorem unknown_variant_is_unsupported self w r_types recipient :
  verify_recipients (list_at w (_recipients self)) (heap w) = inr r_types →
  names_no_variant r_types →
  encrypt (self, w) = (Raise Unsupported, (self, w))
  ∧ (has_recipient recipient (list_at w (_recipients self)) (heap w) = true →
     decrypt recipient (self, w) = (Raise Unsupported, (self, w))).
Proof.
  intros Hv (Hde & Hdka & Hkw & Hkakw). split.
  - rewrite encrypt_unfold, Hv.
    by rewrite !bool_decide_eq_false_2 by done.
  - intros Hhas. rewrite decrypt_unfold, Hhas, Hv. cbn [negb].
    by rewrite !bool_decide_eq_false_2 by done.
Qed.

(** X15.  Direct encryption derives nothing: whenever the classification
    names [DirectEncryption], [encrypt] seals, and [decrypt] (for a
    recipient the lookup finds) opens, with the key the envelope holds at
    the call, be it absent; the AEAD step is the only call made, and the
    key is left as it was. *)
Theorem direct_encryption_uses_stored_key self w r_types recipient :
  verify_recipients (list_at w (_recipients self)) (heap w) = inr r_types →
  DirectEncryption ∈ r_types →
  encrypt (self, w)
  = (outcome_of_sum (EncCommon_encrypt self), (self, log (EvSeal (key self)) w))
  ∧ (has_recipient recipient (list_at w (_recipients self)) (heap w) = true →
     decrypt recipient (self, w)
     = (outcome_of_sum (EncCommon_decrypt self),
        (self, log (EvOpen (key self)) w))).
Proof.
  intros Hv Hde. split.
  - rewrite encrypt_unfold, Hv, bool_decide_eq_true_2 by done.
    apply super_encrypt_run.
  - intros Hhas. rewrite decrypt_unfold, Hhas, Hv. cbn [negb].
    rewrite bool_decide_eq_true_2 by done. apply super_decrypt_run.
Qed.

End Branches.

Lemma unknown_variant_is_unsupported_witness :
  @encrypt Reference.collaborators (Examples.envelope None 17, Cases.world)
  = (Raise Unsupported, (Examples.envelope None 17, Cases.world))
  ∧ @decrypt Reference.collaborators 8 (Examples.envelope None 17, Cases.world)
    = (Raise Unsupported, (Examples.envelope None 17, Cases.world)).
Proof.
  destruct (@unknown_variant_is_unsupported Reference.collaborators
              (Examples.envelope None 17) Cases.world [OtherCoseRecipient] 8)
    as [Henc Hdec].
  - reflexivity.
  - unfold names_no_variant. by_decision.
  - split; [exact Henc|]. apply Hdec. reflexivity.
Defined.

Lemma direct_encryption_uses_stored_key_witness :
  @encrypt Reference.collaborators (Examples.envelope None 12, Examples.world)
  = (Raise (CoseException "key is not set"),
     (Examples.envelope None 12,
      mkWorld Examples.objects Examples.list_objects 7 [EvSeal None]))
  ∧ @decrypt Reference.collaborators 4
      (Examples.envelope (Some Examples.preset_key) 12, Examples.world)
    = (Raise (CoseException "authentication failure"),
       (Examples.envelope (Some Examples.preset_key) 12,
        mkWorld Examples.objects Examples.list_objects 7
          [EvOpen (Some Examples.preset_key)])).
Proof.
  split.
  - apply (proj1 (@direct_encryption_uses_stored_key Reference.collaborators
                    (Examples.envelope None 12) Examples.world
                    [DirectEncryption] 4 eq_refl ltac:(by_decision))).
  - apply (proj2 (@direct_encryption_uses_stored_key Reference.collaborators
                    (Examples.envelope (Some Examples.preset_key) 12)
                    Examples.world [DirectEncryption] 4 eq_refl
                    ltac:(by_decision))).
    reflexivity.
Defined.

Lemma decrypt_establishes_key_witness :
  @decrypt Reference.collaborators 7 (Examples.envelope None 13, Examples.world)
  = (Raise (CoseException "authentication failure"),
     (Examples.envelope
        (Some (SymmetricKey [x77] (Some Reference.A128GCM) [DecryptOp])) 13,
      mkWorld Examples.objects Examples.list_objects 7
        [EvComputeCek 7 Reference.A128GCM "decrypt";
         EvOpen (Some (SymmetricKey [x77] (Some Reference.A128GCM)
                         [DecryptOp]))])).
Proof.
  apply (@decrypt_establishes_key Reference.collaborators 7
           (Examples.envelope None 13) Examples.world [DirectKeyAgreement]).
  - reflexivity.
  - reflexivity.
  - by_decision.
  - left. by_decision.
Defined.

(** ** Encode in its two modes *)

Section EncodeModes.
Context `{Collaborators}.

Lemma encode_unfold tag flag self w :
  encode tag flag (self, w)
  = match encode_message flag (self, w) with
    | (Ok message, c) => (outcome_of_sum (CoseMessage_encode message tag), c)
    | (Raise e, c) => (Raise e, c)
    | (OutOfFuel, c) => (OutOfFuel, c)
    end.
Proof.
  unfold encode. unfold bind at 1.
  destruct (encode_message flag (self, w)) as [[message|e|] c]; [|done|done].
  by destruct (CoseMessage_encode message tag).
Qed.


(** X18.  [encode] with [encrypt=True] runs [encrypt] first: when
    [encrypt] raises, [encode] raises the same error, nothing is encoded,
    and the envelope and the recipients are as [encrypt] left them. *)
Theorem encode_encrypt_error_propagates tag self w e c :
  encrypt (self, w) = (Raise e, c) →
  encode tag true (self, w) = (Raise e, c).
Proof.
  intros Hrun. by rewrite encode_unfold, encode_message_run, Hrun.
Qed.

(** X19.  [encode] with [encrypt=True] on the key-wrap branch encodes the
    recipients after the wrapping pass.  For an envelope with at least one
    recipient, all recipients distinct objects whose own [encrypt] assigns
    no carrier payload: when [encode] returns, the fourth element of the
    array is the recipients' encodings computed on the recipient objects as
    [encrypt] left them, each holding its settled key, the third is the
    ciphertext [encrypt] returned, and the envelope keeps the key the pass
    ended with. *)
Theorem encode_key_wrap_encodes_settled_recipients tag self w out c' :
  classifies self w as_key_wrap →
  NoDup (list_at w (_recipients self)) →
  wrap_keeps_carriers →
  list_at w (_recipients self) ≠ [] →
  encode tag true (self, w) = (Ok out, c') →
  let alg := get_attr_alg self in
  let rs := list_at w (_recipients self) in
  let k0 := fst (os_urandom (get_key_length alg) (entropy w)) in
  let cs := carriers (heap w) rs in
  ∃ body self1 w1 encs,
    encrypt (self, w) = (Ok body, (self1, w1))
    ∧ carriers (heap w1) rs = settled_keys k0 cs
    ∧ encode_run alg rs (heap w1) = (inr encs, heap (snd c'))
    ∧ CoseMessage_encode
        [phdr_encoded (phdr self); uhdr_encoded (uhdr self); CBytes body;
         CArray encs] tag = inr out
    ∧ key (fst c') = Some (SymmetricKey (settled_key k0 cs) (Some alg) [EncryptOp]).
Proof.
  intros Hcls Hnd Hkeep Hrs Hrun alg rs k0 cs.
  rewrite encode_unfold, encode_message_run in Hrun.
  destruct (encrypt (self, w)) as [[body|e|] [self1 w1]] eqn:Henc;
    [|done|done].
  destruct (encrypt_key_wrap_returns _ _ _ _ _ Hcls Hnd Hkeep Henc)
    as (Hself1 & Hafter & _).
  fold alg rs k0 cs in Hself1, Hafter.
  cbn zeta in Hrun. fold rs alg in Hrun.
  destruct rs as [|r rs'] eqn:Hlist; [done|].
  destruct (encode_run alg (r :: rs') (heap w1)) as [[e|encs] h2] eqn:Hencs;
    [done|].
  destruct (CoseMessage_encode _ tag) as [e|b] eqn:Hwire; [done|].
  cbn [outcome_of_sum] in Hrun. injection Hrun as <- <-.
  exists body, self1, w1, encs. cbn [fst snd heap with_heap].
  split; [done|]. split; [done|]. split; [by destruct w1|].
  split; [done|]. by rewrite Hself1.
Qed.

End EncodeModes.

Lemma encode_encrypt_error_propagates_witness :
  @encode Reference.collaborators true true
    (Examples.envelope None 12, Examples.world)
  = (Raise (CoseException "key is not set"),
     (Examples.envelope None 12,
      mkWorld Examples.objects Examples.list_objects 7 [EvSeal None])).
Proof.
  apply (@encode_encrypt_error_propagates Reference.collaborators).
  reflexivity.
Defined.

Lemma encode_key_wrap_encodes_settled_recipients_witness :
  let self := Examples.envelope None 18 in
  let k0 := fst (Reference.os_urandom 16 7) in
  let after := snd (@encode Reference.collaborators true true (self, Cases.world)) in
  ∃ body self1 w1 encs,
    @encrypt Reference.collaborators (self, Cases.world) = (Ok body, (self1, w1))
    ∧ carriers (heap w1) [1; 3] = [k0; k0]
    ∧ @encode_run Reference.collaborators Reference.A128GCM [1; 3] (heap w1)
      = (inr encs, heap (snd after))
    ∧ Reference.CoseMessage_encode
        [Reference.phdr_encoded (phdr self); Reference.uhdr_encoded (uhdr self);
         CBytes body; CArray encs] true
      = inr (match fst (@encode Reference.collaborators true true
                          (self, Cases.world)) with
             | Ok out => out
             | _ => []
             end)
    ∧ key (fst after) = Some (SymmetricKey k0 (Some Reference.A128GCM) [EncryptOp]).
Proof.
  intros self k0 after.
  apply (@encode_key_wrap_encodes_settled_recipients Reference.collaborators
           true self Cases.world _ after).
  - apply cases_key_wrap_classifies. auto.
  - by_decision.
  - exact reference_wrap_keeps_carriers.
  - discriminate.
  - vm_compute. reflexivity.
Defined.
